(** * ChannelMix: downmix of positional multichannel audio to stereo

    A shallow embedding of [audio_utils/ChannelMix.h] and the properties
    of its mask decoder, generic matrix mixer and quad / 5.1 / 7.1 fast
    paths.

    Modelling conventions.
    - [float] samples and gains are exact rationals ([Qc]); rounding,
      infinities and NaN are outside that model.  Where they decide, in
      the comparison of the fast paths with the matrix path, the same
      code is modelled a second time over IEEE 754 binary32
      ([Binary32]).
    - [audio_channel_mask_t] and [unsigned] are 32-bit values held in [Z],
      with the wrap-around of negation and complement written out.
    - [size_t] counters and indexes are [nat].
    - A [const float *src] is the list of samples from the pointer on;
      [src += n] is [drop n src].  [float *dst] is the destination buffer
      with the offset of the pointer in it.  The two buffers do not
      overlap.  An access outside a buffer is undefined behaviour and is
      modelled by [None]. *)

From Stdlib Require Import ZArith QArith Qcanon Lia SpecFloat.
From stdpp Require Import base option list numbers.

Local Open Scope Z_scope.

(** ** The channel vocabulary ([channels.h], [system/audio.h]) *)

Module Channels.

(** Modelled from the spec: the header [channels.h] and the channel
    position constants it brings in are not part of the sources at hand.
    The spec treats them as a fixed external vocabulary with at most 24
    position slots and stereo output; the bit values are those of the
    Android audio vocabulary, whose ascending order
    FL FR FC LFE BL BR BC SL SR is the one recorded in the comment of
    [setInputChannelMask]. *)
Definition FCC_2 : nat := 2.
Definition FCC_24 : Z := 24.

Definition AUDIO_CHANNEL_NONE : Z := 0x0.
Definition AUDIO_CHANNEL_OUT_FRONT_LEFT : Z := 0x1.
Definition AUDIO_CHANNEL_OUT_FRONT_RIGHT : Z := 0x2.
Definition AUDIO_CHANNEL_OUT_FRONT_CENTER : Z := 0x4.
Definition AUDIO_CHANNEL_OUT_LOW_FREQUENCY : Z := 0x8.
Definition AUDIO_CHANNEL_OUT_BACK_LEFT : Z := 0x10.
Definition AUDIO_CHANNEL_OUT_BACK_RIGHT : Z := 0x20.
Definition AUDIO_CHANNEL_OUT_FRONT_LEFT_OF_CENTER : Z := 0x40.
Definition AUDIO_CHANNEL_OUT_FRONT_RIGHT_OF_CENTER : Z := 0x80.
Definition AUDIO_CHANNEL_OUT_BACK_CENTER : Z := 0x100.
Definition AUDIO_CHANNEL_OUT_SIDE_LEFT : Z := 0x200.
Definition AUDIO_CHANNEL_OUT_SIDE_RIGHT : Z := 0x400.

Definition AUDIO_CHANNEL_OUT_STEREO : Z :=
  Z.lor AUDIO_CHANNEL_OUT_FRONT_LEFT AUDIO_CHANNEL_OUT_FRONT_RIGHT.
Definition AUDIO_CHANNEL_OUT_QUAD_BACK : Z :=
  Z.lor AUDIO_CHANNEL_OUT_STEREO
    (Z.lor AUDIO_CHANNEL_OUT_BACK_LEFT AUDIO_CHANNEL_OUT_BACK_RIGHT).
Definition AUDIO_CHANNEL_OUT_QUAD_SIDE : Z :=
  Z.lor AUDIO_CHANNEL_OUT_STEREO
    (Z.lor AUDIO_CHANNEL_OUT_SIDE_LEFT AUDIO_CHANNEL_OUT_SIDE_RIGHT).
Definition AUDIO_CHANNEL_OUT_5POINT1_BACK : Z :=
  Z.lor AUDIO_CHANNEL_OUT_QUAD_BACK
    (Z.lor AUDIO_CHANNEL_OUT_FRONT_CENTER AUDIO_CHANNEL_OUT_LOW_FREQUENCY).
Definition AUDIO_CHANNEL_OUT_5POINT1_SIDE : Z :=
  Z.lor AUDIO_CHANNEL_OUT_QUAD_SIDE
    (Z.lor AUDIO_CHANNEL_OUT_FRONT_CENTER AUDIO_CHANNEL_OUT_LOW_FREQUENCY).
Definition AUDIO_CHANNEL_OUT_7POINT1 : Z :=
  Z.lor AUDIO_CHANNEL_OUT_5POINT1_BACK
    (Z.lor AUDIO_CHANNEL_OUT_SIDE_LEFT AUDIO_CHANNEL_OUT_SIDE_RIGHT).

End Channels.
Import Channels.

(** ** Machine integers *)

(** Conversion to a 32-bit [unsigned]. *)
Definition to_unsigned (x : Z) : Z := x mod 2 ^ 32.

(** The values of [audio_channel_mask_t], an enumeration over [uint32_t]. *)
Definition is_uint32 (x : Z) : Prop := 0 ≤ x < 2 ^ 32.

(** ** Samples *)

(** A [float] sample or gain. *)
Abbreviation sample := Qc (only parsing).

Definition sample_of (q : Q) : sample := Q2Qc q.

(** [0.5f], and [0.5] as the [double] factor of the fast paths. *)
Definition half : sample := sample_of (1 # 2).

(** [MINUS_3_DB_IN_FLOAT = M_SQRT1_2] converted to [float]: the
    single-precision number 0x3F3504F3. *)
Definition MINUS_3_DB_IN_FLOAT : sample := sample_of (11863283 # 16777216).

Definition LIMIT_AMPLITUDE : sample := 1%Qc.

(** [fmax] and [fmin] of [math.h] on numbers. *)
Definition fmax (x y : sample) : sample :=
  match (x ?= y)%Qc with Lt => y | _ => x end.

Definition fmin (x y : sample) : sample :=
  match (x ?= y)%Qc with Gt => y | _ => x end.

Definition clamp (value : sample) : sample :=
  fmin (fmax value (- LIMIT_AMPLITUDE)%Qc) LIMIT_AMPLITUDE.

(** ** The mixer object *)

Record ChannelMix : Type := mkChannelMix {
  mMatrix : list (sample * sample);
  mInputChannelMask : Z;
  mLastValidChannelIndexPlusOne : nat;
  mInputChannelCount : nat
}.

(** A default-constructed mixer.  [mMatrix] has no initialiser: its 24
    rows hold whatever [garbage] the storage had. *)
Definition ChannelMix_default (garbage : list (sample * sample))
    : ChannelMix :=
  mkChannelMix garbage AUDIO_CHANNEL_NONE 0 0.

(** The branches of the [switch] in [setInputChannelMask]: the three
    gain patterns and the [default] branch. *)
Inductive role : Type := RoleLeft | RoleRight | RoleCenter | RoleOther.

Definition classify (lowestBit : Z) : role :=
  if (lowestBit =? AUDIO_CHANNEL_OUT_FRONT_LEFT)
     || (lowestBit =? AUDIO_CHANNEL_OUT_SIDE_LEFT)
     || (lowestBit =? AUDIO_CHANNEL_OUT_BACK_LEFT) then RoleLeft
  else if (lowestBit =? AUDIO_CHANNEL_OUT_FRONT_RIGHT)
     || (lowestBit =? AUDIO_CHANNEL_OUT_SIDE_RIGHT)
     || (lowestBit =? AUDIO_CHANNEL_OUT_BACK_RIGHT) then RoleRight
  else if (lowestBit =? AUDIO_CHANNEL_OUT_FRONT_CENTER)
     || (lowestBit =? AUDIO_CHANNEL_OUT_LOW_FREQUENCY)
     || (lowestBit =? AUDIO_CHANNEL_OUT_BACK_CENTER) then RoleCenter
  else RoleOther.

Definition gain (r : role) : sample * sample :=
  match r with
  | RoleLeft => (half, 0%Qc)
  | RoleRight => (0%Qc, half)
  | RoleCenter =>
      ((half * MINUS_3_DB_IN_FLOAT)%Qc, (half * MINUS_3_DB_IN_FLOAT)%Qc)
  | RoleOther => (0%Qc, 0%Qc)
  end.

(** The [for (unsigned tmp = inputChannelMask; tmp != 0; ++index)] loop.
    Every turn clears one bit of [tmp], so 32 turns of [fuel] are enough
    for any 32-bit value ([decode_fuel_enough] below).  The result is the
    matrix, the last valid index plus one, and the final [index]. *)
Fixpoint decode (fuel : nat) (tmp : Z) (index : nat)
    (matrix : list (sample * sample)) (lastValid : nat)
    : list (sample * sample) * nat * nat :=
  match fuel with
  | O => (matrix, lastValid, index)
  | S fuel' =>
      if tmp =? 0 then (matrix, lastValid, index)
      else
        let lowestBit := Z.land tmp (to_unsigned (- tmp)) in
        let r := classify lowestBit in
        let matrix' := <[index := gain r]> matrix in
        let lastValid' :=
          match r with RoleOther => lastValid | _ => S index end in
        decode fuel' (Z.lxor tmp lowestBit) (S index) matrix' lastValid'
  end.

Definition out_of_range (inputChannelMask : Z) : bool :=
  negb (Z.land inputChannelMask
          (to_unsigned (Z.lnot (Z.shiftl 1 FCC_24 - 1))) =? 0).

Definition setInputChannelMask (this : ChannelMix) (inputChannelMask : Z)
    : bool * ChannelMix :=
  if negb (mInputChannelMask this =? inputChannelMask) then
    if out_of_range inputChannelMask then (false, this)
    else
      let '(matrix, lastValid, index) :=
        decode 32 inputChannelMask 0 (mMatrix this)
          (mLastValidChannelIndexPlusOne this) in
      (true, mkChannelMix matrix inputChannelMask lastValid index)
  else (true, this).

Definition getInputChannelMask (this : ChannelMix) : Z :=
  mInputChannelMask this.

(** The constructor taking a mask. *)
Definition ChannelMix_new (garbage : list (sample * sample))
    (inputChannelMask : Z) : ChannelMix :=
  (setInputChannelMask (ChannelMix_default garbage) inputChannelMask).2.

(** ** Buffers *)

(** [dst[i] = v]: a store outside the buffer is undefined. *)
Definition store (dst : list sample) (i : nat) (v : sample)
    : option (list sample) :=
  if decide (i < length dst)%nat then Some (<[i := v]> dst) else None.

(** ** The generic matrix path *)

(** The inner [for (size_t i = 0; i < mLastValidChannelIndexPlusOne; ++i)]
    loop, with [n] turns left to go from index [i]. *)
Fixpoint matrixRow (matrix : list (sample * sample)) (src : list sample)
    (n i : nat) (ch : sample * sample) : option (sample * sample) :=
  match n with
  | O => Some ch
  | S n' =>
      g ← matrix !! i;
      s ← src !! i;
      matrixRow matrix src n' (S i)
        ((ch.1 + g.1 * s)%Qc, (ch.2 + g.2 * s)%Qc)
  end.

(** The sums of one frame, before accumulation and clamping. *)
Definition matrixFrame (this : ChannelMix) (src : list sample)
    : option (sample * sample) :=
  matrixRow (mMatrix this) src (mLastValidChannelIndexPlusOne this) 0
    (0%Qc, 0%Qc).

(** The [while (frameCount)] loop of [matrixProcess]; [dp] is the offset
    of the [dst] pointer in the destination buffer. *)
Fixpoint matrixLoop (this : ChannelMix) (accumulate : bool)
    (src dst : list sample) (dp frameCount : nat) : option (list sample) :=
  match frameCount with
  | O => Some dst
  | S frameCount' =>
      ch ← matrixFrame this src;
      ch ← (if accumulate then
              d0 ← dst !! dp;
              d1 ← dst !! (dp + 1)%nat;
              Some ((ch.1 + d0)%Qc, (ch.2 + d1)%Qc)
            else Some ch);
      dst ← store dst dp (clamp ch.1);
      dst ← store dst (dp + 1) (clamp ch.2);
      matrixLoop this accumulate (drop (mInputChannelCount this) src) dst
        (dp + FCC_2) frameCount'
  end.

Definition matrixProcess (this : ChannelMix) (src dst : list sample)
    (frameCount : nat) (accumulate : bool) : option (bool * list sample) :=
  if mInputChannelMask this =? AUDIO_CHANNEL_NONE then Some (false, dst)
  else
    dst' ← matrixLoop this accumulate src dst 0 frameCount;
    Some (true, dst').

(** ** The fast paths *)

(** The sums of one frame of [specificProcess<CHANNEL_COUNT, _>], before
    the scaling by [0.5]; [Some None] is the final [else] branch, taken
    for a channel count without a fast path. *)
Definition specificFrame (CHANNEL_COUNT : nat) (src : list sample)
    : option (option (sample * sample)) :=
  if (CHANNEL_COUNT =? 4)%nat then
    s0 ← src !! 0%nat; s2 ← src !! 2%nat;
    s1 ← src !! 1%nat; s3 ← src !! 3%nat;
    Some (Some ((s0 + s2)%Qc, (s1 + s3)%Qc))
  else if (CHANNEL_COUNT =? 6)%nat then
    s2 ← src !! 2%nat; s3 ← src !! 3%nat;
    let centerPlusLfeContrib := (s2 + s3)%Qc in
    s0 ← src !! 0%nat; s4 ← src !! 4%nat;
    s1 ← src !! 1%nat; s5 ← src !! 5%nat;
    Some (Some ((s0 + s4 + centerPlusLfeContrib * MINUS_3_DB_IN_FLOAT)%Qc,
                (s1 + s5 + centerPlusLfeContrib * MINUS_3_DB_IN_FLOAT)%Qc))
  else if (CHANNEL_COUNT =? 8)%nat then
    s2 ← src !! 2%nat; s3 ← src !! 3%nat;
    let centerPlusLfeContrib := (s2 + s3)%Qc in
    s0 ← src !! 0%nat; s4 ← src !! 4%nat; s6 ← src !! 6%nat;
    s1 ← src !! 1%nat; s5 ← src !! 5%nat; s7 ← src !! 7%nat;
    Some (Some ((s0 + s4 + s6 + centerPlusLfeContrib * MINUS_3_DB_IN_FLOAT)%Qc,
                (s1 + s5 + s7 + centerPlusLfeContrib * MINUS_3_DB_IN_FLOAT)%Qc))
  else Some None.

Fixpoint specificProcess (CHANNEL_COUNT : nat) (ACCUMULATE : bool)
    (src dst : list sample) (dp frameCount : nat)
    : option (bool * list sample) :=
  match frameCount with
  | O => Some (true, dst)
  | S frameCount' =>
      sums ← specificFrame CHANNEL_COUNT src;
      match sums with
      | None => Some (false, dst)
      | Some ch =>
          let ch0 := (ch.1 * half)%Qc in
          let ch1 := (ch.2 * half)%Qc in
          dst ← (if ACCUMULATE then
                   d0 ← dst !! dp;
                   dst ← store dst dp (clamp (d0 + ch0)%Qc);
                   d1 ← dst !! (dp + 1)%nat;
                   store dst (dp + 1) (clamp (d1 + ch1)%Qc)
                 else
                   dst ← store dst dp (clamp ch0);
                   store dst (dp + 1) (clamp ch1));
          specificProcess CHANNEL_COUNT ACCUMULATE (drop CHANNEL_COUNT src)
            dst (dp + FCC_2) frameCount'
      end
  end.

(** ** Dispatch *)

Definition processSwitch (ACCUMULATE : bool) (this : ChannelMix)
    (src dst : list sample) (frameCount : nat) : option (bool * list sample) :=
  let mask := mInputChannelMask this in
  if (mask =? AUDIO_CHANNEL_OUT_QUAD_BACK)
     || (mask =? AUDIO_CHANNEL_OUT_QUAD_SIDE) then
    specificProcess 4 ACCUMULATE src dst 0 frameCount
  else if (mask =? AUDIO_CHANNEL_OUT_5POINT1_BACK)
     || (mask =? AUDIO_CHANNEL_OUT_5POINT1_SIDE) then
    specificProcess 6 ACCUMULATE src dst 0 frameCount
  else if mask =? AUDIO_CHANNEL_OUT_7POINT1 then
    specificProcess 8 ACCUMULATE src dst 0 frameCount
  else matrixProcess this src dst frameCount ACCUMULATE.

(** [process] with four arguments. *)
Definition process (this : ChannelMix) (src dst : list sample)
    (frameCount : nat) (accumulate : bool) : option (bool * list sample) :=
  if accumulate then processSwitch true this src dst frameCount
  else processSwitch false this src dst frameCount.

(** [process] with five arguments: the mixer is reconfigured first, and
    [&&] skips the mix when that fails. *)
Definition process_mask (this : ChannelMix) (src dst : list sample)
    (frameCount : nat) (accumulate : bool) (inputChannelMask : Z)
    : option (bool * list sample) * ChannelMix :=
  let '(ok, this') := setInputChannelMask this inputChannelMask in
  if ok then (process this' src dst frameCount accumulate, this')
  else (Some (false, dst), this').

(** ** The states a mixer can be in *)

(** A mixer is default-constructed over a 24-row matrix and then only
    changed by [setInputChannelMask]. *)
Inductive reachable : ChannelMix → Prop :=
  | reachable_default garbage :
      length garbage = Z.to_nat FCC_24 →
      reachable (ChannelMix_default garbage)
  | reachable_set this inputChannelMask :
      reachable this →
      is_uint32 inputChannelMask →
      reachable (setInputChannelMask this inputChannelMask).2.

(** * The same code in binary32 *)

(** The mixer once more, with [float] as IEEE 754 binary32 instead of
    exact rationals: every sum and product is rounded to the nearest
    binary32 number (ties to even), overflows to an infinity, and may be
    a NaN.  Each operation of the source is one rounded operation, in the
    order the source writes them (no fused multiply-add).  Only the
    comparison of the two paths needs this model; the other properties
    are stated over exact samples. *)
Module Binary32.

Definition prec : Z := 24.
Definition emax : Z := 128.

Definition fadd (x y : spec_float) : spec_float := SFadd prec emax x y.
Definition fmul (x y : spec_float) : spec_float := SFmul prec emax x y.

(** [0.f], [0.5f], [1.f] and [-1.f]. *)
Definition zero : spec_float := S754_zero false.
Definition half : spec_float := S754_finite false 8388608 (-24).
Definition one : spec_float := S754_finite false 8388608 (-23).

(** [M_SQRT1_2] as a [float]: 11863283 / 2^24, the number 0x3F3504F3. *)
Definition MINUS_3_DB_IN_FLOAT : spec_float :=
  S754_finite false 11863283 (-24).

Definition LIMIT_AMPLITUDE : spec_float := one.

(** [fmax] and [fmin] of [math.h]: a NaN argument gives way to the other
    argument. *)
Definition fmax (x y : spec_float) : spec_float :=
  match SFcompare x y with
  | Some Lt => y
  | Some _ => x
  | None => match x with S754_nan => y | _ => x end
  end.

Definition fmin (x y : spec_float) : spec_float :=
  match SFcompare x y with
  | Some Gt => y
  | Some _ => x
  | None => match x with S754_nan => y | _ => x end
  end.

Definition clamp (value : spec_float) : spec_float :=
  fmin (fmax value (SFopp LIMIT_AMPLITUDE)) LIMIT_AMPLITUDE.

Record ChannelMix : Type := mkChannelMix {
  mMatrix : list (spec_float * spec_float);
  mInputChannelMask : Z;
  mLastValidChannelIndexPlusOne : nat;
  mInputChannelCount : nat
}.

Definition ChannelMix_default (garbage : list (spec_float * spec_float))
    : ChannelMix :=
  mkChannelMix garbage AUDIO_CHANNEL_NONE 0 0.

Definition gain (r : role) : spec_float * spec_float :=
  match r with
  | RoleLeft => (half, zero)
  | RoleRight => (zero, half)
  | RoleCenter =>
      (fmul half MINUS_3_DB_IN_FLOAT, fmul half MINUS_3_DB_IN_FLOAT)
  | RoleOther => (zero, zero)
  end.

Fixpoint decode (fuel : nat) (tmp : Z) (index : nat)
    (matrix : list (spec_float * spec_float)) (lastValid : nat)
    : list (spec_float * spec_float) * nat * nat :=
  match fuel with
  | O => (matrix, lastValid, index)
  | S fuel' =>
      if tmp =? 0 then (matrix, lastValid, index)
      else
        let lowestBit := Z.land tmp (to_unsigned (- tmp)) in
        let r := classify lowestBit in
        let matrix' := <[index := gain r]> matrix in
        let lastValid' :=
          match r with RoleOther => lastValid | _ => S index end in
        decode fuel' (Z.lxor tmp lowestBit) (S index) matrix' lastValid'
  end.

Definition setInputChannelMask (this : ChannelMix) (inputChannelMask : Z)
    : bool * ChannelMix :=
  if negb (mInputChannelMask this =? inputChannelMask) then
    if out_of_range inputChannelMask then (false, this)
    else
      let '(matrix, lastValid, index) :=
        decode 32 inputChannelMask 0 (mMatrix this)
          (mLastValidChannelIndexPlusOne this) in
      (true, mkChannelMix matrix inputChannelMask lastValid index)
  else (true, this).

Definition ChannelMix_new (garbage : list (spec_float * spec_float))
    (inputChannelMask : Z) : ChannelMix :=
  (setInputChannelMask (ChannelMix_default garbage) inputChannelMask).2.

Definition store (dst : list spec_float) (i : nat) (v : spec_float)
    : option (list spec_float) :=
  if decide (i < length dst)%nat then Some (<[i := v]> dst) else None.

Fixpoint matrixRow (matrix : list (spec_float * spec_float))
    (src : list spec_float) (n i : nat) (ch : spec_float * spec_float)
    : option (spec_float * spec_float) :=
  match n with
  | O => Some ch
  | S n' =>
      g ← matrix !! i;
      s ← src !! i;
      matrixRow matrix src n' (S i)
        (fadd ch.1 (fmul g.1 s), fadd ch.2 (fmul g.2 s))
  end.

Definition matrixFrame (this : ChannelMix) (src : list spec_float)
    : option (spec_float * spec_float) :=
  matrixRow (mMatrix this) src (mLastValidChannelIndexPlusOne this) 0
    (zero, zero).

Fixpoint matrixLoop (this : ChannelMix) (accumulate : bool)
    (src dst : list spec_float) (dp frameCount : nat)
    : option (list spec_float) :=
  match frameCount with
  | O => Some dst
  | S frameCount' =>
      ch ← matrixFrame this src;
      ch ← (if accumulate then
              d0 ← dst !! dp;
              d1 ← dst !! (dp + 1)%nat;
              Some (fadd ch.1 d0, fadd ch.2 d1)
            else Some ch);
      dst ← store dst dp (clamp ch.1);
      dst ← store dst (dp + 1) (clamp ch.2);
      matrixLoop this accumulate (drop (mInputChannelCount this) src) dst
        (dp + FCC_2) frameCount'
  end.

Definition matrixProcess (this : ChannelMix) (src dst : list spec_float)
    (frameCount : nat) (accumulate : bool)
    : option (bool * list spec_float) :=
  if mInputChannelMask this =? AUDIO_CHANNEL_NONE then Some (false, dst)
  else
    dst' ← matrixLoop this accumulate src dst 0 frameCount;
    Some (true, dst').

Definition specificFrame (CHANNEL_COUNT : nat) (src : list spec_float)
    : option (option (spec_float * spec_float)) :=
  if (CHANNEL_COUNT =? 4)%nat then
    s0 ← src !! 0%nat; s2 ← src !! 2%nat;
    s1 ← src !! 1%nat; s3 ← src !! 3%nat;
    Some (Some (fadd s0 s2, fadd s1 s3))
  else if (CHANNEL_COUNT =? 6)%nat then
    s2 ← src !! 2%nat; s3 ← src !! 3%nat;
    let centerPlusLfeContrib := fadd s2 s3 in
    s0 ← src !! 0%nat; s4 ← src !! 4%nat;
    s1 ← src !! 1%nat; s5 ← src !! 5%nat;
    Some (Some
      (fadd (fadd s0 s4) (fmul centerPlusLfeContrib MINUS_3_DB_IN_FLOAT),
       fadd (fadd s1 s5) (fmul centerPlusLfeContrib MINUS_3_DB_IN_FLOAT)))
  else if (CHANNEL_COUNT =? 8)%nat then
    s2 ← src !! 2%nat; s3 ← src !! 3%nat;
    let centerPlusLfeContrib := fadd s2 s3 in
    s0 ← src !! 0%nat; s4 ← src !! 4%nat; s6 ← src !! 6%nat;
    s1 ← src !! 1%nat; s5 ← src !! 5%nat; s7 ← src !! 7%nat;
    Some (Some
      (fadd (fadd (fadd s0 s4) s6)
         (fmul centerPlusLfeContrib MINUS_3_DB_IN_FLOAT),
       fadd (fadd (fadd s1 s5) s7)
         (fmul centerPlusLfeContrib MINUS_3_DB_IN_FLOAT)))
  else Some None.

(** [ch[0] *= 0.5] goes through [double]: the product of a binary32
    number and 0.5 is exact there, so rounding it back is the binary32
    product. *)
Fixpoint specificProcess (CHANNEL_COUNT : nat) (ACCUMULATE : bool)
    (src dst : list spec_float) (dp frameCount : nat)
    : option (bool * list spec_float) :=
  match frameCount with
  | O => Some (true, dst)
  | S frameCount' =>
      sums ← specificFrame CHANNEL_COUNT src;
      match sums with
      | None => Some (false, dst)
      | Some ch =>
          let ch0 := fmul ch.1 half in
          let ch1 := fmul ch.2 half in
          dst ← (if ACCUMULATE then
                   d0 ← dst !! dp;
                   dst ← store dst dp (clamp (fadd d0 ch0));
                   d1 ← dst !! (dp + 1)%nat;
                   store dst (dp + 1) (clamp (fadd d1 ch1))
                 else
                   dst ← store dst dp (clamp ch0);
                   store dst (dp + 1) (clamp ch1));
          specificProcess CHANNEL_COUNT ACCUMULATE (drop CHANNEL_COUNT src)
            dst (dp + FCC_2) frameCount'
      end
  end.

Definition processSwitch (ACCUMULATE : bool) (this : ChannelMix)
    (src dst : list spec_float) (frameCount : nat)
    : option (bool * list spec_float) :=
  let mask := mInputChannelMask this in
  if (mask =? AUDIO_CHANNEL_OUT_QUAD_BACK)
     || (mask =? AUDIO_CHANNEL_OUT_QUAD_SIDE) then
    specificProcess 4 ACCUMULATE src dst 0 frameCount
  else if (mask =? AUDIO_CHANNEL_OUT_5POINT1_BACK)
     || (mask =? AUDIO_CHANNEL_OUT_5POINT1_SIDE) then
    specificProcess 6 ACCUMULATE src dst 0 frameCount
  else if mask =? AUDIO_CHANNEL_OUT_7POINT1 then
    specificProcess 8 ACCUMULATE src dst 0 frameCount
  else matrixProcess this src dst frameCount ACCUMULATE.

Definition process (this : ChannelMix) (src dst : list spec_float)
    (frameCount : nat) (accumulate : bool)
    : option (bool * list spec_float) :=
  if accumulate then processSwitch true this src dst frameCount
  else processSwitch false this src dst frameCount.

(** Storage contents before construction: any 24 rows will do. *)
Definition garbage_rows : list (spec_float * spec_float) :=
  replicate 24 (half, MINUS_3_DB_IN_FLOAT).


End Binary32.

(** * Vocabulary of the properties *)

(** ** The channels of a mask *)

(** The roles of the set bits of [tmp], lowest bit first: the sequence
    of [switch] branches the loop of [decode] goes through. *)
Fixpoint roles (fuel : nat) (tmp : Z) : list role :=
  match fuel with
  | O => []
  | S fuel' =>
      if tmp =? 0 then []
      else
        let lowestBit := Z.land tmp (to_unsigned (- tmp)) in
        classify lowestBit :: roles fuel' (Z.lxor tmp lowestBit)
  end.

(** The set bits of [tmp], lowest first, as the loop of [decode] meets
    them: the channel order of an input frame. *)
Fixpoint channel_bits (fuel : nat) (tmp : Z) : list Z :=
  match fuel with
  | O => []
  | S fuel' =>
      if tmp =? 0 then []
      else
        let lowestBit := Z.land tmp (to_unsigned (- tmp)) in
        lowestBit :: channel_bits fuel' (Z.lxor tmp lowestBit)
  end.

(** Rows [index], [index + 1], ... overwritten with the gains of [rs]. *)
Fixpoint write_gains (index : nat) (rs : list role)
    (matrix : list (sample * sample)) : list (sample * sample) :=
  match rs with
  | [] => matrix
  | r :: rs' => write_gains (S index) rs' (<[index := gain r]> matrix)
  end.

(** The last valid index plus one after the channels [rs] from [index]. *)
Fixpoint last_valid (index : nat) (rs : list role) (lastValid : nat) : nat :=
  match rs with
  | [] => lastValid
  | r :: rs' =>
      last_valid (S index) rs'
        match r with RoleOther => lastValid | _ => S index end
  end.

Definition recognized (r : role) : bool :=
  match r with RoleOther => false | _ => true end.

(** All the bits of [tmp] are at positions [lo .. hi - 1]. *)
Definition bits_within (lo hi : Z) (tmp : Z) : Prop :=
  ∀ i, Z.testbit tmp i = true → lo ≤ i < hi.

(** The nine positions the [switch] of [setInputChannelMask] knows. *)
Definition RECOGNIZED_POSITIONS : Z :=
  Z.lor AUDIO_CHANNEL_OUT_FRONT_LEFT
  (Z.lor AUDIO_CHANNEL_OUT_FRONT_RIGHT
  (Z.lor AUDIO_CHANNEL_OUT_FRONT_CENTER
  (Z.lor AUDIO_CHANNEL_OUT_LOW_FREQUENCY
  (Z.lor AUDIO_CHANNEL_OUT_BACK_LEFT
  (Z.lor AUDIO_CHANNEL_OUT_BACK_RIGHT
  (Z.lor AUDIO_CHANNEL_OUT_BACK_CENTER
  (Z.lor AUDIO_CHANNEL_OUT_SIDE_LEFT AUDIO_CHANNEL_OUT_SIDE_RIGHT))))))).

(** A mask of position bits none of which is recognized. *)
Definition unrecognized_only (m : Z) : Prop :=
  0 < m < 2 ^ FCC_24 ∧ Z.land m RECOGNIZED_POSITIONS = 0.

(** ** What holds of every mixer *)

(** What holds of every mixer: the matrix has its 24 rows, the mask has
    only position bits, the channel count is the number of set bits, rows
    below the channel count hold the gains of their channels, and the
    last valid index stays within the matrix. *)
Record well_formed (this : ChannelMix) : Prop := mkWellFormed {
  wf_length : length (mMatrix this) = Z.to_nat FCC_24;
  wf_mask : 0 ≤ mInputChannelMask this < 2 ^ FCC_24;
  wf_count :
    mInputChannelCount this = length (roles 32 (mInputChannelMask this));
  wf_rows : ∀ i r,
    roles 32 (mInputChannelMask this) !! i = Some r →
    mMatrix this !! i = Some (gain r);
  wf_last_bound : (mLastValidChannelIndexPlusOne this ≤ Z.to_nat FCC_24)%nat;
  wf_last :
    existsb recognized (roles 32 (mInputChannelMask this)) = true →
    mLastValidChannelIndexPlusOne this =
      last_valid 0 (roles 32 (mInputChannelMask this)) 0
}.

(** ** Frames *)

(** What a frame stores: the clamped sum, with the old destination sample
    added first when accumulating. *)
Definition mixed (accumulate : bool) (sum old : sample) : sample :=
  clamp (if accumulate then (sum + old)%Qc else sum).

(** Both [matrixProcess] and [specificProcess] run this loop, with their
    own sums per frame and their own stride ([matrixLoop_frameLoop],
    [specificProcess_frameLoop]). *)
Fixpoint frameLoop (frame : list sample → option (sample * sample))
    (stride : nat) (accumulate : bool) (src dst : list sample) (dp n : nat)
    : option (list sample) :=
  match n with
  | O => Some dst
  | S n' =>
      ch ← frame src;
      d0 ← dst !! dp;
      d1 ← dst !! (dp + 1)%nat;
      frameLoop frame stride accumulate (drop stride src)
        (<[(dp + 1)%nat := mixed accumulate ch.2 d1]>
           (<[dp := mixed accumulate ch.1 d0]> dst))
        (dp + 2) n'
  end.

(** The sums of a fast-path frame after the scaling by [0.5]. *)
Definition specificSums (CHANNEL_COUNT : nat) (src : list sample)
    : option (sample * sample) :=
  sums ← specificFrame CHANNEL_COUNT src;
  ch ← sums;
  Some ((ch.1 * half)%Qc, (ch.2 * half)%Qc).

Definition fast_count (CHANNEL_COUNT : nat) : Prop :=
  CHANNEL_COUNT = 4%nat ∨ CHANNEL_COUNT = 6%nat ∨ CHANNEL_COUNT = 8%nat.

(** The channel count of the fast path a mask is sent to by the [switch]
    of [processSwitch], if any. *)
Definition fastChannelCount (mask : Z) : option nat :=
  if (mask =? AUDIO_CHANNEL_OUT_QUAD_BACK)
     || (mask =? AUDIO_CHANNEL_OUT_QUAD_SIDE) then Some 4%nat
  else if (mask =? AUDIO_CHANNEL_OUT_5POINT1_BACK)
     || (mask =? AUDIO_CHANNEL_OUT_5POINT1_SIDE) then Some 6%nat
  else if mask =? AUDIO_CHANNEL_OUT_7POINT1 then Some 8%nat
  else None.

(** The sums of a frame on the path the mixer takes, and the number of
    source samples it moves on by. *)
Definition frameSums (this : ChannelMix) (src : list sample)
    : option (sample * sample) :=
  match fastChannelCount (mInputChannelMask this) with
  | Some CHANNEL_COUNT => specificSums CHANNEL_COUNT src
  | None => matrixFrame this src
  end.

Definition frameStride (this : ChannelMix) : nat :=
  match fastChannelCount (mInputChannelMask this) with
  | Some CHANNEL_COUNT => CHANNEL_COUNT
  | None => mInputChannelCount this
  end.

(** ** Minimum, maximum and sums *)

(** The mathematical minimum and maximum, by the order. *)
Definition Qc_min (x y : Qc) : Qc := if decide (x ≤ y)%Qc then x else y.
Definition Qc_max (x y : Qc) : Qc := if decide (x ≤ y)%Qc then y else x.

Global Instance sample_inhabited : Inhabited sample := populate 0%Qc.

(** [term 0 + term 1 + ... + term (n - 1)], added up from the left as the
    loop does. *)
Fixpoint sum_below (n : nat) (term : nat → sample) : sample :=
  match n with
  | O => 0%Qc
  | S n' => (sum_below n' term + term n')%Qc
  end.

(** The sum over [i < n] of [gain[i] * src[off + i]], for the left
    ([fst]) or right ([snd]) gains. *)
Definition gain_sum (side : sample * sample → sample)
    (matrix : list (sample * sample)) (src : list sample) (off n : nat)
    : sample :=
  sum_below n (λ i, (side (matrix !!! i) * (src !!! (off + i)%nat))%Qc).

(** The source samples a mix of [n] frames reads: none for no frame, and
    up to the last sample read in the last frame otherwise. *)
Definition source_needed (stride reads n : nat) : nat :=
  match n with
  | O => O
  | S n' => (n' * stride + reads)%nat
  end.

(** ** Mirrors *)

(** The position on the other side of a left or right position. *)
Definition mirror_bit (bit : Z) : Z :=
  if bit =? AUDIO_CHANNEL_OUT_FRONT_LEFT then AUDIO_CHANNEL_OUT_FRONT_RIGHT
  else if bit =? AUDIO_CHANNEL_OUT_FRONT_RIGHT then AUDIO_CHANNEL_OUT_FRONT_LEFT
  else if bit =? AUDIO_CHANNEL_OUT_BACK_LEFT then AUDIO_CHANNEL_OUT_BACK_RIGHT
  else if bit =? AUDIO_CHANNEL_OUT_BACK_RIGHT then AUDIO_CHANNEL_OUT_BACK_LEFT
  else if bit =? AUDIO_CHANNEL_OUT_SIDE_LEFT then AUDIO_CHANNEL_OUT_SIDE_RIGHT
  else if bit =? AUDIO_CHANNEL_OUT_SIDE_RIGHT then AUDIO_CHANNEL_OUT_SIDE_LEFT
  else bit.

Fixpoint index_of (bit : Z) (bits : list Z) : nat :=
  match bits with
  | [] => O
  | b :: bits' => if b =? bit then O else S (index_of bit bits')
  end.

(** The index, in a frame of [mask], of the mirror of channel [i]. *)
Definition mirror_index (mask : Z) (i : nat) : nat :=
  let bits := channel_bits 32 mask in
  match bits !! i with
  | Some bit => index_of (mirror_bit bit) bits
  | None => i
  end.

(** A mask made of left/right pairs only: front, back and side. *)
Definition mirror_pairs_mask (front back side : bool) : Z :=
  Z.lor
    (if front
     then Z.lor AUDIO_CHANNEL_OUT_FRONT_LEFT AUDIO_CHANNEL_OUT_FRONT_RIGHT
     else 0)
    (Z.lor
       (if back
        then Z.lor AUDIO_CHANNEL_OUT_BACK_LEFT AUDIO_CHANNEL_OUT_BACK_RIGHT
        else 0)
       (if side
        then Z.lor AUDIO_CHANNEL_OUT_SIDE_LEFT AUDIO_CHANNEL_OUT_SIDE_RIGHT
        else 0)).

(** [src'] is [src] with the samples of mirrored channels swapped in each
    of the first [n] frames of [mask]. *)
Definition mirrored_source (mask : Z) (n : nat) (src src' : list sample)
    : Prop :=
  let count := length (channel_bits 32 mask) in
  ∀ f i, (f < n)%nat → (i < count)%nat →
    src' !! (f * count + i)%nat
      = src !! (f * count + mirror_index mask i)%nat.

(** [dst'] is [dst] with left and right swapped in each of the first [n]
    stereo frames. *)
Definition swapped_stereo (n : nat) (dst dst' : list sample) : Prop :=
  length dst' = length dst
  ∧ (∀ f, (f < n)%nat →
       dst' !! (2 * f)%nat = dst !! (2 * f + 1)%nat
       ∧ dst' !! (2 * f + 1)%nat = dst !! (2 * f)%nat)
  ∧ (∀ k, (2 * n ≤ k)%nat → dst' !! k = dst !! k).

Definition swap_lr (ch : sample * sample) : sample * sample := (ch.2, ch.1).

(** ** Concrete mixers and buffers *)

(** Storage contents before construction: any 24 rows will do. *)
Definition garbage_rows : list (sample * sample) :=
  replicate 24 (half, MINUS_3_DB_IN_FLOAT).

Definition ratio (a : Z) (b : positive) : sample := sample_of (a # b).

(** The rational values of a buffer. *)
Definition values (buf : list sample) : list Q := Qcanon.this <$> buf.

(** ** The set bits of a mask, by position *)

(** The single-bit values of the bits of [m] set at the [n] positions
    from [lo] up, in ascending order. *)
Fixpoint set_bits_from (n : nat) (lo : Z) (m : Z) : list Z :=
  match n with
  | O => []
  | S n' =>
      if Z.testbit m lo then 2 ^ lo :: set_bits_from n' (lo + 1) m
      else set_bits_from n' (lo + 1) m
  end.

(** The set bits of a 32-bit mask, lowest first. *)
Definition set_bits (m : Z) : list Z := set_bits_from 32 0 m.

(** ** The fast-path formulas, by sample index *)

(** Left and right of the frame of [CHANNEL_COUNT] samples that starts at
    [src[off]], by the formulas of the fast paths: front, back (or side)
    and, for 7.1, side on each side, with front center and low frequency
    at -3 dB on both, all at half amplitude. *)
Definition fast_sums (CHANNEL_COUNT : nat) (src : list sample) (off : nat)
    : sample * sample :=
  let s (i : nat) : sample := src !!! (off + i)%nat in
  if (CHANNEL_COUNT =? 4)%nat then
    (((s 0%nat + s 2%nat) * half)%Qc, ((s 1%nat + s 3%nat) * half)%Qc)
  else if (CHANNEL_COUNT =? 6)%nat then
    (((s 0%nat + s 4%nat
       + (s 2%nat + s 3%nat) * MINUS_3_DB_IN_FLOAT) * half)%Qc,
     ((s 1%nat + s 5%nat
       + (s 2%nat + s 3%nat) * MINUS_3_DB_IN_FLOAT) * half)%Qc)
  else
    (((s 0%nat + s 4%nat + s 6%nat
       + (s 2%nat + s 3%nat) * MINUS_3_DB_IN_FLOAT) * half)%Qc,
     ((s 1%nat + s 5%nat + s 7%nat
       + (s 2%nat + s 3%nat) * MINUS_3_DB_IN_FLOAT) * half)%Qc).

(** * Properties *)

(** ** The decoder as a list of roles *)

Section decoder.

Lemma decode_roles fuel : ∀ tmp index matrix lastValid,
  decode fuel tmp index matrix lastValid =
    (write_gains index (roles fuel tmp) matrix,
     last_valid index (roles fuel tmp) lastValid,
     (index + length (roles fuel tmp))%nat).
Proof.
  induction fuel as [|fuel IH]; intros tmp index matrix lastValid; simpl.
  - by rewrite Nat.add_0_r.
  - destruct (tmp =? 0); simpl.
    + by rewrite Nat.add_0_r.
    + rewrite IH. by rewrite Nat.add_succ_r.
Qed.

Lemma length_write_gains rs : ∀ index matrix,
  length (write_gains index rs matrix) = length matrix.
Proof.
  induction rs as [|r rs IH]; intros index matrix; simpl; [done|].
  by rewrite IH, length_insert.
Qed.

Lemma write_gains_outside rs : ∀ index matrix j,
  (j < index ∨ index + length rs ≤ j)%nat →
  write_gains index rs matrix !! j = matrix !! j.
Proof.
  induction rs as [|r rs IH]; intros index matrix j Hj; simpl; [done|].
  rewrite IH by (simpl in Hj; lia).
  apply list_lookup_insert_ne. simpl in Hj. lia.
Qed.

Lemma write_gains_inside rs : ∀ index matrix i r,
  rs !! i = Some r →
  (index + i < length matrix)%nat →
  write_gains index rs matrix !! (index + i)%nat = Some (gain r).
Proof.
  induction rs as [|r0 rs IH]; intros index matrix i r Hi Hlen; [done|].
  destruct i as [|i]; simpl in *.
  - injection Hi as ->. rewrite write_gains_outside by lia.
    rewrite Nat.add_0_r in *. by apply list_lookup_insert_eq.
  - replace (index + S i)%nat with (S index + i)%nat by lia.
    apply IH; [done|]. rewrite length_insert. lia.
Qed.

Lemma last_valid_unrecognized rs : ∀ index lastValid,
  forallb (λ r, negb (recognized r)) rs = true →
  last_valid index rs lastValid = lastValid.
Proof.
  induction rs as [|r rs IH]; intros index lastValid Hrs; simpl in *; [done|].
  apply andb_prop in Hrs as [Hr Hrs]. rewrite IH by done.
  by destruct r.
Qed.

Lemma last_valid_bounds rs : ∀ index lastValid,
  (last_valid index rs lastValid ≤ index + length rs)%nat
  ∨ last_valid index rs lastValid = lastValid.
Proof.
  induction rs as [|r rs IH]; intros index lastValid; simpl; [by right|].
  destruct (IH (S index)
    match r with RoleOther => lastValid | _ => S index end) as [H|H].
  - left. lia.
  - rewrite H. destruct r; (by right) || (left; lia).
Qed.

Lemma last_valid_recognized rs : ∀ index lastValid,
  existsb recognized rs = true →
  (index < last_valid index rs lastValid ≤ index + length rs)%nat
  ∧ ∀ lastValid', last_valid index rs lastValid' = last_valid index rs lastValid.
Proof.
  induction rs as [|r rs IH]; intros index lastValid Hrs; simpl in *; [done|].
  destruct (existsb recognized rs) eqn:Hex.
  - destruct (IH (S index)
      match r with RoleOther => lastValid | _ => S index end eq_refl) as [Hb He].
    split; [lia|]. intros lastValid'. rewrite He. symmetry. apply He.
  - rewrite orb_false_r in Hrs.
    assert (forallb (λ r, negb (recognized r)) rs = true) as Hall.
    { apply forallb_forall. intros x Hx. apply negb_true_iff.
      destruct (recognized x) eqn:Hrx; [|done].
      assert (existsb recognized rs = true); [|congruence].
      apply existsb_exists. eauto. }
    split.
    + rewrite last_valid_unrecognized by done. destruct r; simpl in *; (done || lia).
    + intros lastValid'. rewrite !last_valid_unrecognized by done.
      by destruct r.
Qed.

End decoder.

(** ** The lowest set bit *)

Section lowest_bit.

Lemma to_unsigned_bits x i : 0 ≤ i < 32 →
  Z.testbit (to_unsigned x) i = Z.testbit x i.
Proof. intros Hi. unfold to_unsigned. apply Z.mod_pow2_bits_low. lia. Qed.

(** In [-tmp] the lowest set bit of [tmp] is set as well. *)
Lemma opp_lowest_bit tmp j :
  0 ≤ j →
  (∀ i, i < j → Z.testbit tmp i = false) →
  Z.testbit tmp j = true →
  Z.testbit (- tmp) j = true.
Proof.
  intros Hj Hlow Hbit.
  assert (tmp = (tmp / 2 ^ j) * 2 ^ j) as Htmp.
  { assert (tmp mod 2 ^ j = 0) as Hmod.
    { apply Z.bits_inj_0. intros i.
      destruct (Z_lt_dec i 0) as [Hneg|Hnn]; [by apply Z.testbit_neg_r|].
      destruct (Z_lt_dec i j) as [Hlt|Hge].
      - rewrite Z.mod_pow2_bits_low by lia. apply Hlow. lia.
      - apply Z.mod_pow2_bits_high. lia. }
    pose proof (Z.div_mod tmp (2 ^ j)) as Hdm.
    assert (2 ^ j ≠ 0) by (apply Z.pow_nonzero; lia). lia. }
  rewrite Htmp, <- Z.mul_opp_l, Z.mul_pow2_bits by lia.
  rewrite Z.sub_diag, Z.bit0_odd, Z.odd_opp, <- Z.bit0_odd.
  rewrite Z.div_pow2_bits by lia. by rewrite Z.add_0_l.
Qed.

(** One turn of the loop clears the lowest set bit and nothing else. *)
Lemma clear_lowest_bit_within lo hi tmp :
  0 ≤ lo → hi ≤ 32 →
  bits_within lo hi tmp →
  bits_within (lo + 1) hi
    (Z.lxor tmp (Z.land tmp (to_unsigned (- tmp)))).
Proof.
  intros Hlo Hhi Hw i Hi.
  rewrite Z.lxor_spec, Z.land_spec in Hi.
  destruct (Z.testbit tmp i) eqn:Hti; [|done].
  specialize (Hw i Hti) as Hrange.
  destruct (Z.eq_dec i lo) as [->|Hne]; [|lia].
  rewrite to_unsigned_bits in Hi by lia.
  rewrite opp_lowest_bit in Hi; [done|lia| |done].
  intros k Hk. destruct (Z.testbit tmp k) eqn:Hk'; [|done].
  apply Hw in Hk'. lia.
Qed.

Lemma bits_within_empty lo hi tmp :
  hi ≤ lo → bits_within lo hi tmp → tmp = 0.
Proof.
  intros Hle Hw. apply Z.bits_inj_0. intros i.
  destruct (Z.testbit tmp i) eqn:Hi; [|done]. apply Hw in Hi. lia.
Qed.

Lemma bits_within_bound hi x :
  0 ≤ hi → 0 ≤ x < 2 ^ hi → bits_within 0 hi x.
Proof.
  intros Hhi Hx i Hi.
  destruct (Z_lt_dec i 0) as [Hneg|Hnn].
  { by rewrite Z.testbit_neg_r in Hi. }
  split; [lia|].
  destruct (Z_lt_dec i hi) as [|Hge]; [done|].
  destruct (Z.eq_dec x 0) as [->|Hx0]; [by rewrite Z.bits_0 in Hi|].
  rewrite Z.bits_above_log2 in Hi; [done|lia|].
  assert (Z.log2 x < hi); [|lia]. apply Z.log2_lt_pow2; lia.
Qed.

(** Fuel beyond the width of the remaining bits changes nothing. *)
Lemma roles_fuel_enough fuel : ∀ lo tmp extra,
  0 ≤ lo → bits_within lo 32 tmp → 32 ≤ lo + Z.of_nat fuel →
  roles (fuel + extra) tmp = roles fuel tmp.
Proof.
  induction fuel as [|fuel IH]; intros lo tmp extra Hlo Hw Hfuel.
  - rewrite (bits_within_empty lo 32 tmp) by (done || lia).
    by destruct extra.
  - simpl. destruct (tmp =? 0); [done|]. f_equal.
    apply (IH (lo + 1)); [lia| |lia].
    by apply clear_lowest_bit_within.
Qed.

(** A mask of [hi - lo] possible bits has at most that many channels. *)
Lemma roles_length fuel : ∀ lo hi tmp,
  0 ≤ lo ≤ hi → hi ≤ 32 → bits_within lo hi tmp →
  Z.of_nat (length (roles fuel tmp)) ≤ hi - lo.
Proof.
  induction fuel as [|fuel IH]; intros lo hi tmp Hlo Hhi Hw; simpl; [lia|].
  destruct (tmp =? 0) eqn:Htmp; simpl; [lia|].
  destruct (Z.eq_dec lo hi) as [->|Hne].
  { apply bits_within_empty in Hw; [|lia]. subst tmp. done. }
  specialize (IH (lo + 1) hi _ ltac:(lia) Hhi
    (clear_lowest_bit_within lo hi tmp ltac:(lia) Hhi Hw)).
  lia.
Qed.

End lowest_bit.

(** The loop of [decode] ends by itself within 32 turns: more fuel gives
    the same matrix, last valid index and channel count. *)
Lemma decode_fuel_enough tmp index matrix lastValid extra :
  is_uint32 tmp →
  decode (32 + extra) tmp index matrix lastValid =
    decode 32 tmp index matrix lastValid.
Proof.
  intros Htmp. rewrite !decode_roles.
  by rewrite (roles_fuel_enough 32 0 tmp extra)
    by (done || (apply bits_within_bound; done) || lia).
Qed.

(** The range test of [setInputChannelMask]. *)
Lemma out_of_range_false m :
  is_uint32 m → out_of_range m = false → 0 ≤ m < 2 ^ FCC_24.
Proof.
  intros [Hm0 Hm] Hr. split; [done|].
  unfold out_of_range in Hr. apply negb_false_iff, Z.eqb_eq in Hr.
  change (to_unsigned (Z.lnot (Z.shiftl 1 FCC_24 - 1)))
    with (2 ^ 32 - 2 ^ 24) in Hr. change FCC_24 with 24.
  destruct (Z_lt_dec m (2 ^ 24)) as [|Hge]; [done|]. exfalso.
  assert (0 < m) as Hpos by lia.
  pose proof (Z.log2_spec m Hpos) as [Hl1 Hl2].
  assert (24 ≤ Z.log2 m < 32) as Hlog.
  { split.
    - apply Z.log2_le_pow2; lia.
    - apply Z.log2_lt_pow2; lia. }
  assert (Z.testbit (Z.land m (2 ^ 32 - 2 ^ 24)) (Z.log2 m) = true) as Hbit.
  { rewrite Z.land_spec, Z.bit_log2 by done. simpl.
    assert (Z.log2 m = 24 ∨ Z.log2 m = 25 ∨ Z.log2 m = 26 ∨ Z.log2 m = 27
      ∨ Z.log2 m = 28 ∨ Z.log2 m = 29 ∨ Z.log2 m = 30 ∨ Z.log2 m = 31)
      as Hcases by lia.
    destruct Hcases as [->|[->|[->|[->|[->|[->|[->| ->]]]]]]]; reflexivity. }
  rewrite Hr, Z.bits_0 in Hbit. done.
Qed.

Lemma out_of_range_true m i :
  is_uint32 m → 24 ≤ i → Z.testbit m i = true → out_of_range m = true.
Proof.
  intros Hm Hi Hbit.
  destruct (out_of_range m) eqn:Hr; [done|].
  apply out_of_range_false in Hr; [|done].
  apply (bits_within_bound 24) in Hr; [|lia].
  apply Hr in Hbit. lia.
Qed.

(** From here on the loop is used through [decode_roles] only. *)
Global Arguments decode : simpl never.
Global Arguments roles : simpl never.

(** ** Invariants of the mixer *)

Lemma roles_in_range m :
  0 ≤ m < 2 ^ FCC_24 → (length (roles 32 m) ≤ Z.to_nat FCC_24)%nat.
Proof.
  intros Hm.
  pose proof (roles_length 32 0 24 m ltac:(lia) ltac:(lia)
    (bits_within_bound 24 m ltac:(lia) Hm)) as Hlen.
  change (Z.to_nat FCC_24) with 24%nat. lia.
Qed.

(** A call that changes the mask, spelled out. *)
Lemma setInputChannelMask_changed this m :
  mInputChannelMask this ≠ m → out_of_range m = false →
  setInputChannelMask this m =
    (true,
     mkChannelMix (write_gains 0 (roles 32 m) (mMatrix this)) m
       (last_valid 0 (roles 32 m) (mLastValidChannelIndexPlusOne this))
       (length (roles 32 m))).
Proof.
  intros Hne Hr. unfold setInputChannelMask.
  apply Z.eqb_neq in Hne. rewrite Hne, Hr. cbn [negb].
  by rewrite decode_roles.
Qed.

Lemma setInputChannelMask_same this :
  setInputChannelMask this (mInputChannelMask this) = (true, this).
Proof. unfold setInputChannelMask. by rewrite Z.eqb_refl. Qed.

Lemma setInputChannelMask_refused this m :
  mInputChannelMask this ≠ m → out_of_range m = true →
  setInputChannelMask this m = (false, this).
Proof.
  intros Hne Hr. unfold setInputChannelMask.
  apply Z.eqb_neq in Hne. by rewrite Hne, Hr.
Qed.

Lemma setInputChannelMask_well_formed this m :
  is_uint32 m → well_formed this →
  well_formed (setInputChannelMask this m).2.
Proof.
  intros Hm Hwf.
  destruct (Z.eq_dec (mInputChannelMask this) m) as [<-|Hne].
  { by rewrite setInputChannelMask_same. }
  destruct (out_of_range m) eqn:Hr.
  { by rewrite setInputChannelMask_refused. }
  rewrite setInputChannelMask_changed by done. simpl.
  pose proof (out_of_range_false m Hm Hr) as Hrange.
  pose proof (roles_in_range m Hrange) as Hlen.
  destruct Hwf as [Hl _ _ _ Hlb _].
  split; simpl.
  - by rewrite length_write_gains.
  - done.
  - done.
  - intros i r Hi.
    apply (write_gains_inside _ 0); [done|].
    apply lookup_lt_Some in Hi. lia.
  - destruct (last_valid_bounds (roles 32 m) 0
      (mLastValidChannelIndexPlusOne this)) as [H|H]; lia.
  - intros Hex. by apply last_valid_recognized.
Qed.

Lemma reachable_well_formed this : reachable this → well_formed this.
Proof.
  induction 1 as [garbage Hlen|this m _ IH Hm].
  - split; simpl; try done. lia.
  - by apply setInputChannelMask_well_formed.
Qed.

(** ** Configuration *)

(** C8. Asking for the mask that is already configured returns true and
    leaves the whole mixer as it is (matrix, channel count, last valid
    index and mask); so a second [setInputChannelMask] with the same mask,
    right after a first one, changes nothing. *)
Theorem setInputChannelMask_idempotent this m :
  setInputChannelMask this (mInputChannelMask this) = (true, this)
  ∧ (setInputChannelMask (setInputChannelMask this m).2 m).2
      = (setInputChannelMask this m).2
  ∧ ((setInputChannelMask this m).1 = true →
     setInputChannelMask (setInputChannelMask this m).2 m
       = (true, (setInputChannelMask this m).2)).
Proof.
  split; [apply setInputChannelMask_same|].
  destruct (Z.eq_dec (mInputChannelMask this) m) as [<-|Hne].
  { rewrite setInputChannelMask_same. cbn [fst snd].
    by rewrite setInputChannelMask_same. }
  destruct (out_of_range m) eqn:Hr.
  { rewrite !(setInputChannelMask_refused this m) by done. cbn [fst snd].
    by rewrite !(setInputChannelMask_refused this m) by done. }
  rewrite !(setInputChannelMask_changed this m) by done. cbn [fst snd].
  set (this' := mkChannelMix _ _ _ _).
  pose proof (setInputChannelMask_same this') as Hsame.
  change (mInputChannelMask this') with m in Hsame.
  by rewrite Hsame.
Qed.

(** C3. On a mixer in any state it can be in, a mask with a bit outside
    the 24 position slots is refused: [setInputChannelMask] returns false
    and the mixer is unchanged, so that [getInputChannelMask] still gives
    the mask configured before. *)
Theorem setInputChannelMask_invalid_unchanged this m i :
  reachable this → is_uint32 m → FCC_24 ≤ i → Z.testbit m i = true →
  setInputChannelMask this m = (false, this)
  ∧ getInputChannelMask (setInputChannelMask this m).2
      = getInputChannelMask this.
Proof.
  intros Hreach Hm Hi Hbit.
  assert (setInputChannelMask this m = (false, this)) as Hset.
  { pose proof (out_of_range_true m i Hm Hi Hbit) as Hr.
    apply setInputChannelMask_refused; [|done]. intros <-.
    apply reachable_well_formed in Hreach as [_ Hmask _ _ _ _].
    apply (bits_within_bound 24) in Hmask; [|done].
    apply Hmask in Hbit. unfold FCC_24 in Hi. lia. }
  by rewrite Hset.
Qed.

Lemma setInputChannelMask_invalid_unchanged_witness :
  let this := ChannelMix_new (replicate 24 (0%Qc, 0%Qc))
                AUDIO_CHANNEL_OUT_5POINT1_BACK in
  setInputChannelMask this 0x1000003 = (false, this)
  ∧ getInputChannelMask (setInputChannelMask this 0x1000003).2
      = AUDIO_CHANNEL_OUT_5POINT1_BACK.
Proof.
  intros this.
  apply (setInputChannelMask_invalid_unchanged this 0x1000003 24).
  - apply reachable_set; [by apply reachable_default|]. by vm_compute.
  - by vm_compute.
  - by vm_compute.
  - reflexivity.
Defined.

(** ** The frame loop shared by the two paths *)

Section frame_loop.

Variable frame : list sample → option (sample * sample).
Variable stride : nat.
Variable accumulate : bool.

Lemma frameLoop_length n : ∀ src dst dp dst',
  frameLoop frame stride accumulate src dst dp n = Some dst' →
  length dst' = length dst.
Proof.
  induction n as [|n IH]; intros src dst dp dst' Hrun; simpl in Hrun.
  - by injection Hrun as <-.
  - destruct (frame src) as [ch|]; [|done]. simpl in Hrun.
    destruct (dst !! dp) as [d0|]; [|done]. simpl in Hrun.
    destruct (dst !! (dp + 1)%nat) as [d1|]; [|done]. simpl in Hrun.
    apply IH in Hrun. by rewrite !length_insert in Hrun.
Qed.

Lemma frameLoop_outside n : ∀ src dst dp dst' k,
  frameLoop frame stride accumulate src dst dp n = Some dst' →
  (k < dp ∨ dp + 2 * n ≤ k)%nat →
  dst' !! k = dst !! k.
Proof.
  induction n as [|n IH]; intros src dst dp dst' k Hrun Hk; simpl in Hrun.
  - by injection Hrun as <-.
  - destruct (frame src) as [ch|]; [|done]. simpl in Hrun.
    destruct (dst !! dp) as [d0|]; [|done]. simpl in Hrun.
    destruct (dst !! (dp + 1)%nat) as [d1|]; [|done]. simpl in Hrun.
    rewrite (IH _ _ _ _ k Hrun) by lia.
    rewrite !list_lookup_insert_ne by lia. done.
Qed.

Lemma frameLoop_inside n : ∀ src dst dp dst' f,
  frameLoop frame stride accumulate src dst dp n = Some dst' →
  (f < n)%nat →
  ∃ ch d0 d1,
    frame (drop (f * stride) src) = Some ch
    ∧ dst !! (dp + 2 * f)%nat = Some d0
    ∧ dst !! (dp + 2 * f + 1)%nat = Some d1
    ∧ dst' !! (dp + 2 * f)%nat = Some (mixed accumulate ch.1 d0)
    ∧ dst' !! (dp + 2 * f + 1)%nat = Some (mixed accumulate ch.2 d1).
Proof.
  induction n as [|n IH]; intros src dst dp dst' f Hrun Hf; [lia|].
  simpl in Hrun.
  destruct (frame src) as [ch|] eqn:Hch; [|done]. simpl in Hrun.
  destruct (dst !! dp) as [d0|] eqn:Hd0; [|done]. simpl in Hrun.
  destruct (dst !! (dp + 1)%nat) as [d1|] eqn:Hd1; [|done]. simpl in Hrun.
  destruct f as [|f].
  - exists ch, d0, d1. simpl. rewrite !Nat.add_0_r.
    rewrite !(frameLoop_outside _ _ _ _ _ _ Hrun) by lia.
    repeat split; try done.
    + rewrite list_lookup_insert_ne by lia.
      apply list_lookup_insert_eq. by apply lookup_lt_Some in Hd0.
    + apply list_lookup_insert_eq. rewrite length_insert.
      by apply lookup_lt_Some in Hd1.
  - destruct (IH _ _ _ _ f Hrun ltac:(lia))
      as (ch' & e0 & e1 & Hf0 & He0 & He1 & Hr0 & Hr1).
    rewrite !list_lookup_insert_ne in He0, He1 by lia.
    rewrite drop_drop in Hf0.
    replace (stride + f * stride)%nat with (S f * stride)%nat in Hf0 by lia.
    replace (dp + 2 + 2 * f)%nat with (dp + 2 * S f)%nat in * by lia.
    by exists ch', e0, e1.
Qed.

(** The loop goes through when every frame can be summed and the
    destination has room for [n] stereo frames. *)
Lemma frameLoop_total n : ∀ src dst dp,
  (∀ f, (f < n)%nat → is_Some (frame (drop (f * stride) src))) →
  (dp + 2 * n ≤ length dst)%nat →
  is_Some (frameLoop frame stride accumulate src dst dp n).
Proof.
  induction n as [|n IH]; intros src dst dp Hframes Hroom; simpl; [done|].
  destruct (Hframes 0%nat ltac:(lia)) as [ch Hch].
  rewrite Nat.mul_0_l, drop_0 in Hch. rewrite Hch. simpl.
  destruct (lookup_lt_is_Some_2 dst dp ltac:(lia)) as [d0 ->]. simpl.
  destruct (lookup_lt_is_Some_2 dst (dp + 1) ltac:(lia)) as [d1 ->]. simpl.
  apply IH.
  - intros f Hf. specialize (Hframes (S f) ltac:(lia)).
    rewrite drop_drop.
    by replace (stride + f * stride)%nat with (S f * stride)%nat by lia.
  - rewrite !length_insert. lia.
Qed.

(** A run that goes through had its frames and its room. *)
Lemma frameLoop_room n src dst dp dst' :
  frameLoop frame stride accumulate src dst dp n = Some dst' → (0 < n)%nat →
  (dp + 2 * n ≤ length dst)%nat.
Proof.
  intros Hrun Hn.
  destruct (frameLoop_inside n src dst dp dst' (n - 1) Hrun ltac:(lia))
    as (_ & _ & d1 & _ & _ & Hd1 & _).
  apply lookup_lt_Some in Hd1. lia.
Qed.

End frame_loop.

Lemma frameLoop_ext frame frame' stride accumulate n : ∀ src dst dp,
  (∀ s, frame s = frame' s) →
  frameLoop frame stride accumulate src dst dp n
    = frameLoop frame' stride accumulate src dst dp n.
Proof.
  induction n as [|n IH]; intros src dst dp Hext; simpl; [done|].
  rewrite Hext. destruct (frame' src) as [ch|]; [|done]. simpl.
  destruct (dst !! dp) as [d0|]; [|done]. simpl.
  destruct (dst !! (dp + 1)%nat) as [d1|]; [|done]. simpl.
  by apply IH.
Qed.

(** *** The matrix path runs the frame loop *)

Lemma store_Some dst i v d :
  dst !! i = Some d → store dst i v = Some (<[i := v]> dst).
Proof.
  intros Hd. unfold store. apply lookup_lt_Some in Hd.
  by rewrite decide_True.
Qed.

Lemma store_None dst i v : dst !! i = None → store dst i v = None.
Proof.
  intros Hd. unfold store. apply lookup_ge_None in Hd.
  rewrite decide_False; [done|lia].
Qed.

Lemma matrixLoop_frameLoop this accumulate n : ∀ src dst dp,
  matrixLoop this accumulate src dst dp n
    = frameLoop (matrixFrame this) (mInputChannelCount this) accumulate
        src dst dp n.
Proof.
  induction n as [|n IH]; intros src dst dp; simpl; [done|].
  destruct (matrixFrame this src) as [ch|]; [|done]. simpl.
  destruct (dst !! dp) as [d0|] eqn:Hd0; simpl.
  - destruct (dst !! (dp + 1)%nat) as [d1|] eqn:Hd1; simpl.
    + destruct accumulate; simpl.
      all: rewrite (store_Some _ _ _ _ Hd0); simpl.
      all: erewrite store_Some
        by (rewrite list_lookup_insert_ne by lia; exact Hd1); simpl.
      all: apply IH.
    + destruct accumulate; simpl; [done|].
      rewrite (store_Some _ _ _ _ Hd0); simpl.
      rewrite store_None; [done|].
      by rewrite list_lookup_insert_ne by lia.
  - destruct accumulate; simpl; [done|]. by rewrite store_None.
Qed.

(** *** The fast paths run the frame loop *)

Global Arguments specificSums : simpl never.

Lemma specificFrame_supported CHANNEL_COUNT src :
  fast_count CHANNEL_COUNT → specificFrame CHANNEL_COUNT src ≠ Some None.
Proof.
  intros [->|[->| ->]] Hnone; unfold specificFrame in Hnone;
    simpl in Hnone; by simplify_option_eq.
Qed.

Lemma specificProcess_frameLoop CHANNEL_COUNT ACCUMULATE n : ∀ src dst dp,
  fast_count CHANNEL_COUNT →
  specificProcess CHANNEL_COUNT ACCUMULATE src dst dp n
    = (dst' ← frameLoop (specificSums CHANNEL_COUNT) CHANNEL_COUNT
                ACCUMULATE src dst dp n;
       Some (true, dst')).
Proof.
  induction n as [|n IH]; intros src dst dp Hcount; simpl; [done|].
  pose proof (specificFrame_supported CHANNEL_COUNT src Hcount) as Hsup.
  assert (specificSums CHANNEL_COUNT src
    = (sums ← specificFrame CHANNEL_COUNT src; ch ← sums;
       Some ((ch.1 * half)%Qc, (ch.2 * half)%Qc))) as -> by done.
  destruct (specificFrame CHANNEL_COUNT src) as [[ch|]|]; simpl;
    [|congruence|done].
  unfold mixed.
  destruct (dst !! dp) as [d0|] eqn:Hd0; simpl.
  - assert (∀ v, <[dp := v]> dst !! (dp + 1)%nat = dst !! (dp + 1)%nat)
      as Hnext by (intros v; apply list_lookup_insert_ne; lia).
    destruct (dst !! (dp + 1)%nat) as [d1|] eqn:Hd1; simpl.
    + destruct ACCUMULATE; simpl.
      * rewrite (store_Some _ _ _ _ Hd0). simpl. rewrite Hnext. simpl.
        rewrite (store_Some _ _ _ d1) by (by rewrite Hnext). simpl.
        rewrite IH by done.
        by rewrite (Qcplus_comm d0), (Qcplus_comm d1).
      * rewrite (store_Some _ _ _ _ Hd0). simpl.
        rewrite (store_Some _ _ _ d1) by (by rewrite Hnext). simpl.
        by rewrite IH by done.
    + destruct ACCUMULATE; simpl.
      * rewrite (store_Some _ _ _ _ Hd0). simpl. by rewrite Hnext.
      * rewrite (store_Some _ _ _ _ Hd0). simpl.
        rewrite store_None; [done|]. by rewrite Hnext.
  - destruct ACCUMULATE; simpl; [done|]. by rewrite store_None.
Qed.

(** ** Saturation *)

Section saturation.

Local Open Scope Qc_scope.

Lemma fmax_max x y : fmax x y = Qc_max x y.
Proof.
  unfold fmax, Qc_max. case_decide as Hle.
  - apply Qcle_alt in Hle.
    destruct (x ?= y) eqn:Hc; [by apply Qceq_alt|done|done].
  - destruct (x ?= y) eqn:Hc; [done| |done].
    exfalso. apply Hle, Qclt_le_weak. by apply Qclt_alt.
Qed.

Lemma fmin_min x y : fmin x y = Qc_min x y.
Proof.
  unfold fmin, Qc_min. case_decide as Hle.
  - apply Qcle_alt in Hle. by destruct (x ?= y) eqn:Hc.
  - destruct (x ?= y) eqn:Hc; [| |done].
    + exfalso. apply Hle. apply Qceq_alt in Hc. subst. apply Qcle_refl.
    + exfalso. apply Hle, Qclt_le_weak. by apply Qclt_alt.
Qed.

Lemma clamp_min_max x : clamp x = Qc_min (Qc_max x (-1)) 1.
Proof. unfold clamp. by rewrite fmin_min, fmax_max. Qed.

Lemma minus_one_le_one : (-1 : Qc) ≤ 1.
Proof. done. Qed.

Lemma Qc_not_le_le (x y : Qc) : ¬ x ≤ y → y ≤ x.
Proof. intros Hn. apply Qclt_le_weak. by apply Qclt_nge. Qed.

Lemma clamp_range x : -1 ≤ clamp x ≤ 1.
Proof.
  rewrite clamp_min_max. unfold Qc_min, Qc_max.
  destruct (decide (x ≤ -1)) as [Hlo|Hlo].
  - rewrite decide_True by apply minus_one_le_one.
    split; [apply Qcle_refl|apply minus_one_le_one].
  - apply Qc_not_le_le in Hlo.
    destruct (decide (x ≤ 1)) as [Hhi|Hhi]; [done|].
    split; [apply minus_one_le_one|apply Qcle_refl].
Qed.

Lemma clamp_id x : -1 ≤ x ≤ 1 → clamp x = x.
Proof.
  intros [Hlo Hhi]. rewrite clamp_min_max. unfold Qc_min, Qc_max.
  destruct (decide (x ≤ -1)) as [Hlo'|Hlo'].
  - rewrite decide_True by apply minus_one_le_one. by apply Qcle_antisym.
  - by rewrite decide_True.
Qed.

Lemma clamp_high x : 1 ≤ x → clamp x = 1.
Proof.
  intros Hhi. rewrite clamp_min_max. unfold Qc_min, Qc_max.
  destruct (decide (x ≤ -1)) as [Hlo|Hlo].
  - exfalso. assert ((1 : Qc) ≤ -1) as Habs by (by apply Qcle_trans with x).
    done.
  - destruct (decide (x ≤ 1)) as [Hle|Hle]; [|done]. by apply Qcle_antisym.
Qed.

Lemma clamp_low x : x ≤ -1 → clamp x = -1.
Proof.
  intros Hlo. rewrite clamp_min_max. unfold Qc_min, Qc_max.
  destruct (decide (x ≤ -1)) as [_|Hn]; [|done].
  by rewrite decide_True by apply minus_one_le_one.
Qed.

End saturation.

(** ** The mix as one frame loop *)

Lemma fastChannelCount_Some mask c :
  fastChannelCount mask = Some c →
  fast_count c ∧ mask ≠ AUDIO_CHANNEL_NONE
  ∧ (mask = AUDIO_CHANNEL_OUT_QUAD_BACK ∨ mask = AUDIO_CHANNEL_OUT_QUAD_SIDE
     ∨ mask = AUDIO_CHANNEL_OUT_5POINT1_BACK
     ∨ mask = AUDIO_CHANNEL_OUT_5POINT1_SIDE
     ∨ mask = AUDIO_CHANNEL_OUT_7POINT1).
Proof.
  unfold fastChannelCount, fast_count.
  destruct (mask =? AUDIO_CHANNEL_OUT_QUAD_BACK) eqn:H1;
    [apply Z.eqb_eq in H1; subst; intros [= <-]; split_and!; auto; done|].
  destruct (mask =? AUDIO_CHANNEL_OUT_QUAD_SIDE) eqn:H2;
    [apply Z.eqb_eq in H2; subst; intros [= <-]; split_and!; auto; done|].
  destruct (mask =? AUDIO_CHANNEL_OUT_5POINT1_BACK) eqn:H3;
    [apply Z.eqb_eq in H3; subst; intros [= <-]; split_and!; auto; done|].
  destruct (mask =? AUDIO_CHANNEL_OUT_5POINT1_SIDE) eqn:H4;
    [apply Z.eqb_eq in H4; subst; intros [= <-]; split_and!; auto 6; done|].
  destruct (mask =? AUDIO_CHANNEL_OUT_7POINT1) eqn:H5;
    [apply Z.eqb_eq in H5; subst; intros [= <-]; split_and!; auto 6; done|].
  done.
Qed.

Lemma processSwitch_frameLoop ACCUMULATE this src dst n :
  processSwitch ACCUMULATE this src dst n =
    if mInputChannelMask this =? AUDIO_CHANNEL_NONE then Some (false, dst)
    else
      dst' ← frameLoop (frameSums this) (frameStride this) ACCUMULATE
               src dst 0 n;
      Some (true, dst').
Proof.
  destruct (fastChannelCount (mInputChannelMask this)) as [c|] eqn:Hfast.
  - pose proof (fastChannelCount_Some _ _ Hfast) as (Hc & Hne & _).
    apply Z.eqb_neq in Hne. rewrite Hne.
    rewrite (frameLoop_ext (frameSums this) (specificSums c))
      by (intros s; unfold frameSums; by rewrite Hfast).
    unfold frameStride. rewrite Hfast.
    rewrite <- specificProcess_frameLoop by done.
    unfold processSwitch. unfold fastChannelCount in Hfast.
    destruct (_ || _); [by injection Hfast as <-|].
    destruct (_ || _); [by injection Hfast as <-|].
    destruct (_ =? _); [by injection Hfast as <-|done].
  - rewrite (frameLoop_ext (frameSums this) (matrixFrame this))
      by (intros s; unfold frameSums; by rewrite Hfast).
    unfold frameStride. rewrite Hfast.
    rewrite <- matrixLoop_frameLoop.
    unfold processSwitch. unfold fastChannelCount in Hfast.
    destruct (_ || _); [done|].
    destruct (_ || _); [done|].
    destruct (_ =? _); [done|]. done.
Qed.

Lemma process_frameLoop this src dst n accumulate :
  process this src dst n accumulate =
    if mInputChannelMask this =? AUDIO_CHANNEL_NONE then Some (false, dst)
    else
      dst' ← frameLoop (frameSums this) (frameStride this) accumulate
               src dst 0 n;
      Some (true, dst').
Proof.
  unfold process. destruct accumulate; apply processSwitch_frameLoop.
Qed.

(** A mask without a fast path is mixed by [matrixProcess]. *)
Lemma process_generic this src dst n accumulate :
  fastChannelCount (mInputChannelMask this) = None →
  process this src dst n accumulate
    = matrixProcess this src dst n accumulate.
Proof.
  intros Hfast. unfold process, processSwitch.
  unfold fastChannelCount in Hfast.
  destruct (_ || _); [done|].
  destruct (_ || _); [done|].
  destruct (_ =? _); [done|]. by destruct accumulate.
Qed.

(** C4. The mix returns false exactly when no mask is configured, and a
    mix that returns false has left the destination buffer as it was. *)
Theorem process_false_iff_unconfigured this src dst frameCount accumulate :
  (mInputChannelMask this = AUDIO_CHANNEL_NONE →
   process this src dst frameCount accumulate = Some (false, dst))
  ∧ (∀ ok dst',
       process this src dst frameCount accumulate = Some (ok, dst') →
       (ok = false ↔ mInputChannelMask this = AUDIO_CHANNEL_NONE)
       ∧ (ok = false → dst' = dst)).
Proof.
  rewrite process_frameLoop. split.
  - intros ->. done.
  - intros ok dst' Hrun.
    destruct (mInputChannelMask this =? AUDIO_CHANNEL_NONE) eqn:Hmask.
    + apply Z.eqb_eq in Hmask. injection Hrun as <- <-. done.
    + apply Z.eqb_neq in Hmask.
      destruct (frameLoop _ _ _ _ _ _ _) as [d|]; [|done].
      injection Hrun as <- <-. done.
Qed.

(** C10. [setInputChannelMask(AUDIO_CHANNEL_NONE)] is accepted: it
    returns true and leaves the mixer with no mask, so that every later
    mix returns false without touching the destination; [process] with
    [AUDIO_CHANNEL_NONE] as fifth argument therefore returns false after
    having dropped the configuration the mixer had. *)
Theorem setInputChannelMask_none this :
  let this' := (setInputChannelMask this AUDIO_CHANNEL_NONE).2 in
  (setInputChannelMask this AUDIO_CHANNEL_NONE).1 = true
  ∧ getInputChannelMask this' = AUDIO_CHANNEL_NONE
  ∧ (∀ src dst frameCount accumulate,
       process this' src dst frameCount accumulate = Some (false, dst))
  ∧ (∀ src dst frameCount accumulate,
       process_mask this src dst frameCount accumulate AUDIO_CHANNEL_NONE
         = (Some (false, dst), this'))
  ∧ (mInputChannelMask this ≠ AUDIO_CHANNEL_NONE →
     this' = mkChannelMix (mMatrix this) AUDIO_CHANNEL_NONE
               (mLastValidChannelIndexPlusOne this) 0
     ∧ this' ≠ this).
Proof.
  intros this'.
  assert ((setInputChannelMask this AUDIO_CHANNEL_NONE).1 = true
          ∧ mInputChannelMask this' = AUDIO_CHANNEL_NONE
          ∧ (mInputChannelMask this ≠ AUDIO_CHANNEL_NONE →
             this' = mkChannelMix (mMatrix this) AUDIO_CHANNEL_NONE
                       (mLastValidChannelIndexPlusOne this) 0))
    as (Hok & Hmask & Hnew).
  { subst this'.
    destruct (Z.eq_dec (mInputChannelMask this) AUDIO_CHANNEL_NONE)
      as [Heq|Hne].
    - rewrite <- Heq at 1 2. by rewrite setInputChannelMask_same.
    - by rewrite setInputChannelMask_changed by done. }
  assert (∀ src dst frameCount accumulate,
    process this' src dst frameCount accumulate = Some (false, dst))
    as Hmix.
  { intros. rewrite process_frameLoop. by rewrite Hmask. }
  split_and!; try done.
  - intros. unfold process_mask.
    destruct (setInputChannelMask this AUDIO_CHANNEL_NONE) as [ok st] eqn:Hset.
    simpl in *. subst ok this'. by rewrite Hmix.
  - intros Hne. split; [by apply Hnew|].
    intros Heq. rewrite Heq in Hmask. done.
Qed.

(** ** The generic matrix path, frame by frame *)

Lemma matrixRow_sums matrix src off n : ∀ i,
  (i + n ≤ length matrix)%nat → (off + i + n ≤ length src)%nat →
  matrixRow matrix (drop off src) n i
    (gain_sum fst matrix src off i, gain_sum snd matrix src off i)
  = Some (gain_sum fst matrix src off (i + n),
          gain_sum snd matrix src off (i + n)).
Proof.
  induction n as [|n IH]; intros i Hm Hs; simpl.
  - by rewrite Nat.add_0_r.
  - destruct (lookup_lt_is_Some_2 matrix i ltac:(lia)) as [g Hg].
    destruct (lookup_lt_is_Some_2 src (off + i) ltac:(lia)) as [s Hsrc].
    rewrite Hg, lookup_drop, Hsrc. simpl.
    replace (i + S n)%nat with (S i + n)%nat by lia.
    rewrite <- IH by lia. unfold gain_sum. simpl.
    by rewrite (list_lookup_total_correct _ _ _ Hg),
      (list_lookup_total_correct _ _ _ Hsrc).
Qed.

(** A frame is summed when the rows and the samples it reads exist. *)
Lemma matrixFrame_sums this src off :
  (mLastValidChannelIndexPlusOne this ≤ length (mMatrix this))%nat →
  (off + mLastValidChannelIndexPlusOne this ≤ length src)%nat →
  matrixFrame this (drop off src)
  = Some (gain_sum fst (mMatrix this) src off
            (mLastValidChannelIndexPlusOne this),
          gain_sum snd (mMatrix this) src off
            (mLastValidChannelIndexPlusOne this)).
Proof.
  intros Hm Hs. unfold matrixFrame.
  apply (matrixRow_sums (mMatrix this) src off
    (mLastValidChannelIndexPlusOne this) 0%nat); lia.
Qed.

(** The rows a frame reads are all it depends on. *)
Lemma matrixRow_ext matrix matrix' src n : ∀ i ch,
  (∀ j, (i ≤ j < i + n)%nat → matrix !! j = matrix' !! j) →
  matrixRow matrix src n i ch = matrixRow matrix' src n i ch.
Proof.
  induction n as [|n IH]; intros i ch Hrows; simpl; [done|].
  rewrite (Hrows i) by lia.
  destruct (matrix' !! i) as [g|]; simpl; [|done].
  destruct (src !! i) as [s|]; simpl; [|done].
  apply IH. intros j Hj. apply Hrows. lia.
Qed.

(** C5. With a mask configured, and the rows, source samples and
    destination samples the loop touches in place, [matrixProcess]
    returns true and a destination of the same size in which, for every
    frame [f < frameCount], sample [2f] is the clamped sum over
    [i < mLastValidChannelIndexPlusOne] of the left gain of row [i] times
    [src[f * mInputChannelCount + i]], added to the old [dst[2f]] when
    accumulating, and sample [2f + 1] is the same with the right gains;
    the samples from [2 * frameCount] on are untouched.  The source is
    read only: it is an input of the function and not part of its
    result.  A mask without a fast path is mixed this way. *)
Theorem matrixProcess_frames this src dst frameCount accumulate :
  mInputChannelMask this ≠ AUDIO_CHANNEL_NONE →
  (mLastValidChannelIndexPlusOne this ≤ length (mMatrix this))%nat →
  (source_needed (mInputChannelCount this)
     (mLastValidChannelIndexPlusOne this) frameCount ≤ length src)%nat →
  (2 * frameCount ≤ length dst)%nat →
  ∃ dst',
    matrixProcess this src dst frameCount accumulate = Some (true, dst')
    ∧ length dst' = length dst
    ∧ (∀ f, (f < frameCount)%nat →
         dst' !! (2 * f)%nat =
           Some (clamp ((if accumulate then dst !!! (2 * f)%nat else 0)
                  + gain_sum fst (mMatrix this) src
                      (f * mInputChannelCount this)
                      (mLastValidChannelIndexPlusOne this))%Qc)
         ∧ dst' !! (2 * f + 1)%nat =
           Some (clamp ((if accumulate then dst !!! (2 * f + 1)%nat else 0)
                  + gain_sum snd (mMatrix this) src
                      (f * mInputChannelCount this)
                      (mLastValidChannelIndexPlusOne this))%Qc))
    ∧ (∀ k, (2 * frameCount ≤ k)%nat → dst' !! k = dst !! k)
    ∧ (fastChannelCount (mInputChannelMask this) = None →
       process this src dst frameCount accumulate = Some (true, dst')).
Proof.
  intros Hmask Hrows Hsrc Hdst.
  assert (∀ f, (f < frameCount)%nat →
    matrixFrame this (drop (f * mInputChannelCount this) src)
    = Some (gain_sum fst (mMatrix this) src (f * mInputChannelCount this)
              (mLastValidChannelIndexPlusOne this),
            gain_sum snd (mMatrix this) src (f * mInputChannelCount this)
              (mLastValidChannelIndexPlusOne this))) as Hframes.
  { intros f Hf. apply matrixFrame_sums; [done|].
    destruct frameCount as [|n']; [lia|]. simpl in Hsrc.
    assert (f * mInputChannelCount this ≤ n' * mInputChannelCount this)%nat
      by (apply Nat.mul_le_mono_r; lia).
    lia. }
  destruct (frameLoop_total (matrixFrame this) (mInputChannelCount this)
    accumulate frameCount src dst 0) as [dst' Hrun].
  { intros f Hf. rewrite Hframes by done. done. }
  { lia. }
  assert (matrixProcess this src dst frameCount accumulate = Some (true, dst'))
    as Hproc.
  { unfold matrixProcess. apply Z.eqb_neq in Hmask. rewrite Hmask.
    by rewrite matrixLoop_frameLoop, Hrun. }
  exists dst'. split_and!.
  - done.
  - by apply frameLoop_length in Hrun.
  - intros f Hf.
    destruct (frameLoop_inside _ _ _ _ _ _ _ _ f Hrun Hf)
      as (ch & d0 & d1 & Hch & Hd0 & Hd1 & Hr0 & Hr1).
    rewrite Hframes in Hch by done. injection Hch as <-. simpl in *.
    rewrite Hr0, Hr1.
    rewrite (list_lookup_total_correct _ _ _ Hd0),
      (list_lookup_total_correct _ _ _ Hd1).
    unfold mixed. destruct accumulate.
    + by rewrite (Qcplus_comm d0), (Qcplus_comm d1).
    + by rewrite !Qcplus_0_l.
  - intros k Hk. apply (frameLoop_outside _ _ _ _ _ _ _ _ k Hrun). lia.
  - intros Hfast. by rewrite process_generic.
Qed.

(** ** What a mix stores, on either path *)

Lemma process_true this src dst n accumulate dst' :
  process this src dst n accumulate = Some (true, dst') ↔
  mInputChannelMask this ≠ AUDIO_CHANNEL_NONE
  ∧ frameLoop (frameSums this) (frameStride this) accumulate src dst 0 n
      = Some dst'.
Proof.
  rewrite process_frameLoop.
  destruct (mInputChannelMask this =? AUDIO_CHANNEL_NONE) eqn:Hmask.
  - apply Z.eqb_eq in Hmask. split; [done|]. by intros [? _].
  - apply Z.eqb_neq in Hmask.
    destruct (frameLoop _ _ _ _ _ _ _) as [d|]; simpl.
    + split; [by intros [= <-]|by intros [_ [= <-]]].
    + split; [done|by intros [_ ?]].
Qed.

Lemma process_frames this src dst n accumulate dst' :
  process this src dst n accumulate = Some (true, dst') →
  length dst' = length dst
  ∧ (∀ k, (2 * n ≤ k)%nat → dst' !! k = dst !! k)
  ∧ (∀ f, (f < n)%nat →
     ∃ ch d0 d1,
       frameSums this (drop (f * frameStride this) src) = Some ch
       ∧ dst !! (2 * f)%nat = Some d0
       ∧ dst !! (2 * f + 1)%nat = Some d1
       ∧ dst' !! (2 * f)%nat = Some (mixed accumulate ch.1 d0)
       ∧ dst' !! (2 * f + 1)%nat = Some (mixed accumulate ch.2 d1)).
Proof.
  intros [_ Hrun]%process_true. split_and!.
  - by apply frameLoop_length in Hrun.
  - intros k Hk. apply (frameLoop_outside _ _ _ _ _ _ _ _ k Hrun). lia.
  - intros f Hf.
    destruct (frameLoop_inside _ _ _ _ _ _ _ _ f Hrun Hf)
      as (ch & d0 & d1 & H). by exists ch, d0, d1.
Qed.

Lemma process_total this src dst n accumulate :
  mInputChannelMask this ≠ AUDIO_CHANNEL_NONE →
  (∀ f, (f < n)%nat →
     is_Some (frameSums this (drop (f * frameStride this) src))) →
  (2 * n ≤ length dst)%nat →
  ∃ dst', process this src dst n accumulate = Some (true, dst').
Proof.
  intros Hmask Hframes Hroom.
  destruct (frameLoop_total (frameSums this) (frameStride this) accumulate
    n src dst 0 Hframes ltac:(lia)) as [dst' Hrun].
  exists dst'. by apply process_true.
Qed.

(** Every stored sample is at an even or an odd offset of some frame. *)
Lemma stereo_offset k n :
  (k < 2 * n)%nat →
  ∃ f, (f < n)%nat ∧ (k = 2 * f ∨ k = 2 * f + 1)%nat.
Proof.
  intros Hk. exists (k / 2)%nat.
  pose proof (Nat.div_mod_eq k 2) as Hdm.
  pose proof (Nat.mod_upper_bound k 2 ltac:(lia)) as Hm.
  split; lia.
Qed.

Section clamping.

Local Open Scope Qc_scope.

(** C6. [clamp x] is [min (max x (-1)) 1]; after a mix that returns
    true, on the generic path or a fast one, accumulating or not, every
    sample of the [2 * frameCount] written is within [-1, 1]; each is the
    clamp of the sum of its frame, with the old sample added when
    accumulating; and a sum that accumulation takes to 1 or above (0.9
    taken to 1.2, say) is stored as exactly 1. *)
Theorem process_clamped this src dst frameCount accumulate dst' :
  process this src dst frameCount accumulate = Some (true, dst') →
  (∀ x, clamp x = Qc_min (Qc_max x (-1)) 1)
  ∧ (∀ k, (k < 2 * frameCount)%nat →
       ∃ v, dst' !! k = Some v ∧ -1 ≤ v ≤ 1)
  ∧ (∀ f, (f < frameCount)%nat →
       ∃ ch d0 d1,
         frameSums this (drop (f * frameStride this) src) = Some ch
         ∧ dst !! (2 * f)%nat = Some d0
         ∧ dst !! (2 * f + 1)%nat = Some d1
         ∧ dst' !! (2 * f)%nat
             = Some (clamp (if accumulate then ch.1 + d0 else ch.1))
         ∧ dst' !! (2 * f + 1)%nat
             = Some (clamp (if accumulate then ch.2 + d1 else ch.2))
         ∧ (accumulate = true → 1 ≤ ch.1 + d0 →
            dst' !! (2 * f)%nat = Some 1)
         ∧ (accumulate = true → 1 ≤ ch.2 + d1 →
            dst' !! (2 * f + 1)%nat = Some 1)).
Proof.
  intros Hrun. apply process_frames in Hrun as (_ & _ & Hin).
  split_and!.
  - apply clamp_min_max.
  - intros k Hk.
    destruct (stereo_offset k frameCount Hk) as (f & Hf & [-> | ->]);
      destruct (Hin f Hf) as (ch & d0 & d1 & _ & _ & _ & Hr0 & Hr1).
    + eexists. split; [exact Hr0|]. apply clamp_range.
    + eexists. split; [exact Hr1|]. apply clamp_range.
  - intros f Hf.
    destruct (Hin f Hf) as (ch & d0 & d1 & Hch & Hd0 & Hd1 & Hr0 & Hr1).
    exists ch, d0, d1. split_and!; try done.
    + intros -> Hsum. rewrite Hr0. unfold mixed. by rewrite clamp_high.
    + intros -> Hsum. rewrite Hr1. unfold mixed. by rewrite clamp_high.
Qed.

End clamping.

Section accumulation.

Local Open Scope Qc_scope.

Lemma lookup_zeros (len k : nat) (v : Qc) :
  replicate len (0 : Qc) !! k = Some v → v = 0.
Proof. by intros [-> _]%lookup_replicate. Qed.

(** C7. When every frame sum and its double are within [-1, 1], mixing
    twice with [accumulate] into a destination of zeros gives what mixing
    once without [accumulate] gives, every sample doubled. *)
Theorem accumulate_twice this src frameCount len once :
  process this src (replicate len 0) frameCount false = Some (true, once) →
  (∀ f ch, (f < frameCount)%nat →
     frameSums this (drop (f * frameStride this) src) = Some ch →
     (-1 ≤ ch.1 ≤ 1 ∧ -1 ≤ 2 * ch.1 ≤ 1)
     ∧ (-1 ≤ ch.2 ≤ 1 ∧ -1 ≤ 2 * ch.2 ≤ 1)) →
  ∃ first second,
    process this src (replicate len 0) frameCount true = Some (true, first)
    ∧ process this src first frameCount true = Some (true, second)
    ∧ second = (λ x, 2 * x) <$> once.
Proof.
  intros Honce Hrange.
  pose proof Honce as [Hmask Hloop]%process_true.
  pose proof (process_frames _ _ _ _ _ _ Honce) as (Hlen1 & Hout1 & Hin1).
  assert (2 * frameCount ≤ length (replicate len (0 : Qc)))%nat as Hroom.
  { destruct frameCount as [|n']; [lia|].
    pose proof (frameLoop_room _ _ _ _ _ _ _ _ Hloop ltac:(lia)). lia. }
  assert (∀ f, (f < frameCount)%nat →
    is_Some (frameSums this (drop (f * frameStride this) src))) as Hsome.
  { intros f Hf. destruct (Hin1 f Hf) as (ch & _ & _ & Hch & _). by exists ch. }
  destruct (process_total this src (replicate len 0) frameCount true
    Hmask Hsome Hroom) as [first Hfirst].
  pose proof (process_frames _ _ _ _ _ _ Hfirst) as (Hlen2 & Hout2 & Hin2).
  destruct (process_total this src first frameCount true Hmask Hsome
    ltac:(lia)) as [second Hsecond].
  pose proof (process_frames _ _ _ _ _ _ Hsecond) as (Hlen3 & Hout3 & Hin3).
  exists first, second. split_and!; try done.
  apply list_eq. intros k. rewrite list_lookup_fmap.
  destruct (decide (k < 2 * frameCount)%nat) as [Hk|Hk].
  - destruct (stereo_offset k frameCount Hk) as (f & Hf & Hkf).
    destruct (Hin1 f Hf) as (ch & z0 & z1 & Hch & Hz0 & Hz1 & Ho0 & Ho1).
    destruct (Hin2 f Hf) as (ch' & y0 & y1 & Hch' & Hy0 & Hy1 & Hf0 & Hf1).
    destruct (Hin3 f Hf) as (ch'' & x0 & x1 & Hch'' & Hx0 & Hx1 & Hs0 & Hs1).
    rewrite Hch in Hch', Hch''. injection Hch' as <-. injection Hch'' as <-.
    destruct (Hrange f ch Hf Hch) as [[Hl1 Hl2] [Hr1 Hr2]].
    rewrite Hy0 in Hz0. rewrite Hy1 in Hz1.
    apply lookup_zeros in Hy0, Hy1. subst y0 y1.
    unfold mixed in *. rewrite Qcplus_0_r in Hf0, Hf1.
    rewrite (clamp_id _ Hl1) in Hf0, Ho0.
    rewrite (clamp_id _ Hr1) in Hf1, Ho1.
    rewrite Hf0 in Hx0. rewrite Hf1 in Hx1.
    injection Hx0 as <-. injection Hx1 as <-.
    rewrite Qcplus_diag in Hs0, Hs1.
    rewrite (clamp_id _ Hl2) in Hs0. rewrite (clamp_id _ Hr2) in Hs1.
    destruct Hkf as [-> | ->].
    + by rewrite Hs0, Ho0.
    + by rewrite Hs1, Ho1.
  - rewrite Hout3, Hout2, Hout1 by lia.
    destruct (replicate len (0 : Qc) !! k) as [v|] eqn:Hv; [|done].
    apply lookup_zeros in Hv as ->. simpl. by rewrite Qcmult_0_r.
Qed.

End accumulation.

(** ** The fast paths against the matrix *)

(** On a mixer whose last valid index is within its channel count, a
    frame reads the gains of the channels of the mask. *)
Lemma matrixFrame_roles this src :
  well_formed this →
  (mLastValidChannelIndexPlusOne this ≤ mInputChannelCount this)%nat →
  matrixFrame this src
  = matrixRow (gain <$> roles 32 (mInputChannelMask this)) src
      (mLastValidChannelIndexPlusOne this) 0 (0%Qc, 0%Qc).
Proof.
  intros Hwf Hlast. unfold matrixFrame. apply matrixRow_ext.
  intros j Hj. rewrite list_lookup_fmap.
  destruct (roles 32 (mInputChannelMask this) !! j) as [r|] eqn:Hr.
  - by apply (wf_rows _ Hwf).
  - apply lookup_ge_None in Hr. rewrite <- (wf_count _ Hwf) in Hr. lia.
Qed.

(** What the decoder leaves for a mask whose channels are [rs], the last
    of them recognized. *)
Lemma well_formed_roles this rs c :
  well_formed this →
  roles 32 (mInputChannelMask this) = rs →
  length rs = c → last_valid 0 rs 0 = c → existsb recognized rs = true →
  mInputChannelCount this = c
  ∧ mLastValidChannelIndexPlusOne this = c
  ∧ ∀ src, matrixFrame this src = matrixRow (gain <$> rs) src c 0 (0%Qc, 0%Qc).
Proof.
  intros Hwf Hrs Hlen Hlast Hex.
  pose proof (wf_count _ Hwf) as Hcount.
  pose proof (wf_last _ Hwf) as Hlv.
  rewrite Hrs in Hcount, Hlv. specialize (Hlv Hex).
  rewrite Hlen in Hcount. rewrite Hlast in Hlv.
  split_and!; try done.
  intros src. rewrite matrixFrame_roles by (done || lia).
  by rewrite Hrs, Hlv.
Qed.

Global Arguments half : simpl never.
Global Arguments MINUS_3_DB_IN_FLOAT : simpl never.

Section parity.

Local Open Scope Qc_scope.

Lemma quad_frame src :
  matrixRow (gain <$> [RoleLeft; RoleRight; RoleLeft; RoleRight]) src 4 0
    (0, 0)
  = specificSums 4 src.
Proof.
  unfold specificSums, specificFrame.
  destruct src as [|s0 [|s1 [|s2 [|s3 src]]]]; simpl; try done.
  f_equal. f_equal; ring.
Qed.

Lemma five_point_one_frame src :
  matrixRow
    (gain <$> [RoleLeft; RoleRight; RoleCenter; RoleCenter;
               RoleLeft; RoleRight]) src 6 0 (0, 0)
  = specificSums 6 src.
Proof.
  unfold specificSums, specificFrame.
  destruct src as [|s0 [|s1 [|s2 [|s3 [|s4 [|s5 src]]]]]]; simpl; try done.
  f_equal. f_equal; ring.
Qed.

Lemma seven_point_one_frame src :
  matrixRow
    (gain <$> [RoleLeft; RoleRight; RoleCenter; RoleCenter;
               RoleLeft; RoleRight; RoleLeft; RoleRight]) src 8 0 (0, 0)
  = specificSums 8 src.
Proof.
  unfold specificSums, specificFrame.
  destruct src as [|s0 [|s1 [|s2 [|s3 [|s4 [|s5 [|s6 [|s7 src]]]]]]]];
    simpl; try done.
  f_equal. f_equal; ring.
Qed.

End parity.

(** On a mixer configured for a fast-path mask the matrix holds the
    layout the fast path assumes. *)
Lemma fast_mask_matrix this c :
  reachable this →
  fastChannelCount (mInputChannelMask this) = Some c →
  mInputChannelCount this = c
  ∧ mLastValidChannelIndexPlusOne this = c
  ∧ ∀ src, matrixFrame this src = specificSums c src.
Proof.
  intros Hwf%reachable_well_formed Hfast.
  pose proof (fastChannelCount_Some _ _ Hfast) as (_ & _ & Hmask).
  destruct Hmask as [Hm|[Hm|[Hm|[Hm|Hm]]]]; rewrite Hm in Hfast;
    injection Hfast as <-.
  - destruct (well_formed_roles this
      [RoleLeft; RoleRight; RoleLeft; RoleRight] 4 Hwf)
      as (Hc & Hl & Hf); try done; [by rewrite Hm|].
    split_and!; try done. intros src. by rewrite Hf, quad_frame.
  - destruct (well_formed_roles this
      [RoleLeft; RoleRight; RoleLeft; RoleRight] 4 Hwf)
      as (Hc & Hl & Hf); try done; [by rewrite Hm|].
    split_and!; try done. intros src. by rewrite Hf, quad_frame.
  - destruct (well_formed_roles this
      [RoleLeft; RoleRight; RoleCenter; RoleCenter; RoleLeft; RoleRight]
      6 Hwf) as (Hc & Hl & Hf); try done; [by rewrite Hm|].
    split_and!; try done. intros src. by rewrite Hf, five_point_one_frame.
  - destruct (well_formed_roles this
      [RoleLeft; RoleRight; RoleCenter; RoleCenter; RoleLeft; RoleRight]
      6 Hwf) as (Hc & Hl & Hf); try done; [by rewrite Hm|].
    split_and!; try done. intros src. by rewrite Hf, five_point_one_frame.
  - destruct (well_formed_roles this
      [RoleLeft; RoleRight; RoleCenter; RoleCenter;
       RoleLeft; RoleRight; RoleLeft; RoleRight] 8 Hwf)
      as (Hc & Hl & Hf); try done; [by rewrite Hm|].
    split_and!; try done. intros src. by rewrite Hf, seven_point_one_frame.
Qed.




(** ** Left/right symmetry *)

Lemma roles_channel_bits fuel : ∀ tmp,
  roles fuel tmp = classify <$> channel_bits fuel tmp.
Proof.
  induction fuel as [|fuel IH]; intros tmp; [done|].
  unfold roles; fold roles. simpl. destruct (tmp =? 0); [done|].
  simpl. by rewrite IH.
Qed.

Section frame_loop_swap.

Variables frame frame' : list sample → option (sample * sample).
Variable stride : nat.
Variable accumulate : bool.

Lemma frameLoop_swap n src src' dst dst' out :
  (∀ f, (f < n)%nat →
     frame' (drop (f * stride) src')
       = swap_lr <$> frame (drop (f * stride) src)) →
  swapped_stereo n dst dst' →
  frameLoop frame stride accumulate src dst 0 n = Some out →
  ∃ out',
    frameLoop frame' stride accumulate src' dst' 0 n = Some out'
    ∧ swapped_stereo n out out'.
Proof.
  intros Hframes (Hlen & Hin & Hout) Hrun.
  destruct (frameLoop_total frame' stride accumulate n src' dst' 0)
    as [out' Hrun'].
  { intros f Hf. rewrite Hframes by done.
    destruct (frameLoop_inside _ _ _ _ _ _ _ _ f Hrun Hf)
      as (ch & _ & _ & -> & _). by eexists. }
  { destruct n as [|n']; [lia|].
    pose proof (frameLoop_room _ _ _ _ _ _ _ _ Hrun ltac:(lia)). lia. }
  exists out'. split; [done|].
  split_and!.
  - apply frameLoop_length in Hrun, Hrun'. congruence.
  - intros f Hf.
    destruct (frameLoop_inside _ _ _ _ _ _ _ _ f Hrun Hf)
      as (ch & d0 & d1 & Hch & Hd0 & Hd1 & Hr0 & Hr1).
    destruct (frameLoop_inside _ _ _ _ _ _ _ _ f Hrun' Hf)
      as (ch' & e0 & e1 & Hch' & He0 & He1 & Hs0 & Hs1).
    rewrite Hframes, Hch in Hch' by done. injection Hch' as <-.
    destruct (Hin f Hf) as [Hi0 Hi1]. simpl in *.
    rewrite Hi0, Hd1 in He0. rewrite Hi1, Hd0 in He1.
    injection He0 as <-. injection He1 as <-.
    by rewrite Hs0, Hs1, Hr0, Hr1.
  - intros k Hk.
    rewrite (frameLoop_outside _ _ _ _ _ _ _ _ k Hrun) by lia.
    rewrite (frameLoop_outside _ _ _ _ _ _ _ _ k Hrun') by lia.
    by apply Hout.
Qed.

End frame_loop_swap.

Global Arguments channel_bits : simpl never.
Global Arguments mirror_index : simpl never.

(** On a mixer in use both paths sum a frame as the matrix does, and move
    on by the channel count. *)
Lemma reachable_matrix_view this :
  reachable this →
  (∀ src, frameSums this src = matrixFrame this src)
  ∧ frameStride this = mInputChannelCount this.
Proof.
  intros Hreach. unfold frameSums, frameStride.
  destruct (fastChannelCount (mInputChannelMask this)) as [c|] eqn:Hfast;
    [|done].
  destruct (fast_mask_matrix this c Hreach Hfast) as (Hc & _ & Hf).
  split; [|done]. intros src. by rewrite Hf.
Qed.

Section mirrored_frames.

Local Open Scope Qc_scope.

(** Frames of one, two and three left/right pairs. *)
Lemma swap_one_pair s s' :
  s' !! 0%nat = s !! 1%nat → s' !! 1%nat = s !! 0%nat →
  matrixRow (gain <$> [RoleLeft; RoleRight]) s' 2 0 (0, 0)
  = swap_lr <$> matrixRow (gain <$> [RoleLeft; RoleRight]) s 2 0 (0, 0).
Proof.
  intros H0 H1.
  do 2 (try destruct s as [|? s]); do 2 (try destruct s' as [|? s']);
    simpl in *; simplify_eq; try done.
  unfold swap_lr. simpl. f_equal. f_equal; ring.
Qed.

Lemma swap_two_pairs s s' :
  s' !! 0%nat = s !! 1%nat → s' !! 1%nat = s !! 0%nat →
  s' !! 2%nat = s !! 3%nat → s' !! 3%nat = s !! 2%nat →
  matrixRow (gain <$> [RoleLeft; RoleRight; RoleLeft; RoleRight]) s' 4 0
    (0, 0)
  = swap_lr <$>
      matrixRow (gain <$> [RoleLeft; RoleRight; RoleLeft; RoleRight]) s 4 0
        (0, 0).
Proof.
  intros H0 H1 H2 H3.
  do 4 (try destruct s as [|? s]); do 4 (try destruct s' as [|? s']);
    simpl in *; simplify_eq; try done.
  unfold swap_lr. simpl. f_equal. f_equal; ring.
Qed.

Lemma swap_three_pairs s s' :
  s' !! 0%nat = s !! 1%nat → s' !! 1%nat = s !! 0%nat →
  s' !! 2%nat = s !! 3%nat → s' !! 3%nat = s !! 2%nat →
  s' !! 4%nat = s !! 5%nat → s' !! 5%nat = s !! 4%nat →
  matrixRow
    (gain <$> [RoleLeft; RoleRight; RoleLeft; RoleRight; RoleLeft; RoleRight])
    s' 6 0 (0, 0)
  = swap_lr <$>
      matrixRow
        (gain <$>
           [RoleLeft; RoleRight; RoleLeft; RoleRight; RoleLeft; RoleRight])
        s 6 0 (0, 0).
Proof.
  intros H0 H1 H2 H3 H4 H5.
  do 6 (try destruct s as [|? s]); do 6 (try destruct s' as [|? s']);
    simpl in *; simplify_eq; try done.
  unfold swap_lr. simpl. f_equal. f_equal; ring.
Qed.

End mirrored_frames.

Lemma mirrored_source_frame mask n src src' f i c j :
  mirrored_source mask n src src' →
  length (channel_bits 32 mask) = c → mirror_index mask i = j →
  (f < n)%nat → (i < c)%nat →
  drop (f * c) src' !! i = drop (f * c) src !! j.
Proof.
  intros Hsrc <- <- Hf Hi. rewrite !lookup_drop. by apply Hsrc.
Qed.

(** The frames of a mixer configured for left/right pairs only. *)
Lemma mirrored_frames this front back side n src src' f :
  reachable this →
  mInputChannelMask this = mirror_pairs_mask front back side →
  mInputChannelMask this ≠ AUDIO_CHANNEL_NONE →
  mirrored_source (mInputChannelMask this) n src src' →
  (f < n)%nat →
  matrixFrame this (drop (f * mInputChannelCount this) src')
  = swap_lr <$> matrixFrame this (drop (f * mInputChannelCount this) src).
Proof.
  intros Hwf%reachable_well_formed Hmask Hne Hsrc Hf.
  rewrite Hmask in Hsrc.
  assert (∀ rs c,
    roles 32 (mirror_pairs_mask front back side) = rs →
    length rs = c → last_valid 0 rs 0 = c → existsb recognized rs = true →
    mInputChannelCount this = c
    ∧ ∀ s, matrixFrame this s = matrixRow (gain <$> rs) s c 0 (0%Qc, 0%Qc))
    as Hlayout.
  { intros rs c Hrs Hlen Hlast Hex. rewrite <- Hmask in Hrs.
    destruct (well_formed_roles this rs c Hwf Hrs Hlen Hlast Hex)
      as (? & _ & ?). done. }
  destruct front, back, side.
  - destruct (Hlayout
      [RoleLeft; RoleRight; RoleLeft; RoleRight; RoleLeft; RoleRight]
      6%nat) as [-> Hframe]; try done.
    rewrite !Hframe. apply swap_three_pairs.
    + by apply (mirrored_source_frame _ n src src' f 0 6 1 Hsrc); try lia.
    + by apply (mirrored_source_frame _ n src src' f 1 6 0 Hsrc); try lia.
    + by apply (mirrored_source_frame _ n src src' f 2 6 3 Hsrc); try lia.
    + by apply (mirrored_source_frame _ n src src' f 3 6 2 Hsrc); try lia.
    + by apply (mirrored_source_frame _ n src src' f 4 6 5 Hsrc); try lia.
    + by apply (mirrored_source_frame _ n src src' f 5 6 4 Hsrc); try lia.
  - destruct (Hlayout [RoleLeft; RoleRight; RoleLeft; RoleRight] 4%nat)
      as [-> Hframe]; try done.
    rewrite !Hframe. apply swap_two_pairs.
    + by apply (mirrored_source_frame _ n src src' f 0 4 1 Hsrc); try lia.
    + by apply (mirrored_source_frame _ n src src' f 1 4 0 Hsrc); try lia.
    + by apply (mirrored_source_frame _ n src src' f 2 4 3 Hsrc); try lia.
    + by apply (mirrored_source_frame _ n src src' f 3 4 2 Hsrc); try lia.
  - destruct (Hlayout [RoleLeft; RoleRight; RoleLeft; RoleRight] 4%nat)
      as [-> Hframe]; try done.
    rewrite !Hframe. apply swap_two_pairs.
    + by apply (mirrored_source_frame _ n src src' f 0 4 1 Hsrc); try lia.
    + by apply (mirrored_source_frame _ n src src' f 1 4 0 Hsrc); try lia.
    + by apply (mirrored_source_frame _ n src src' f 2 4 3 Hsrc); try lia.
    + by apply (mirrored_source_frame _ n src src' f 3 4 2 Hsrc); try lia.
  - destruct (Hlayout [RoleLeft; RoleRight] 2%nat) as [-> Hframe]; try done.
    rewrite !Hframe. apply swap_one_pair.
    + by apply (mirrored_source_frame _ n src src' f 0 2 1 Hsrc); try lia.
    + by apply (mirrored_source_frame _ n src src' f 1 2 0 Hsrc); try lia.
  - destruct (Hlayout [RoleLeft; RoleRight; RoleLeft; RoleRight] 4%nat)
      as [-> Hframe]; try done.
    rewrite !Hframe. apply swap_two_pairs.
    + by apply (mirrored_source_frame _ n src src' f 0 4 1 Hsrc); try lia.
    + by apply (mirrored_source_frame _ n src src' f 1 4 0 Hsrc); try lia.
    + by apply (mirrored_source_frame _ n src src' f 2 4 3 Hsrc); try lia.
    + by apply (mirrored_source_frame _ n src src' f 3 4 2 Hsrc); try lia.
  - destruct (Hlayout [RoleLeft; RoleRight] 2%nat) as [-> Hframe]; try done.
    rewrite !Hframe. apply swap_one_pair.
    + by apply (mirrored_source_frame _ n src src' f 0 2 1 Hsrc); try lia.
    + by apply (mirrored_source_frame _ n src src' f 1 2 0 Hsrc); try lia.
  - destruct (Hlayout [RoleLeft; RoleRight] 2%nat) as [-> Hframe]; try done.
    rewrite !Hframe. apply swap_one_pair.
    + by apply (mirrored_source_frame _ n src src' f 0 2 1 Hsrc); try lia.
    + by apply (mirrored_source_frame _ n src src' f 1 2 0 Hsrc); try lia.
  - by rewrite Hmask in Hne.
Qed.

(** C9. On a mixer configured for a mask made of left/right pairs only
    (front, back, side, in any combination), swapping the samples of the
    mirrored channels in every source frame, and left and right in the
    destination the mix starts from, swaps left and right in every frame
    of the destination the mix produces, for the same accumulate flag. *)
Theorem left_right_symmetry this front back side src src' dst dst'
    frameCount accumulate out :
  reachable this →
  mInputChannelMask this = mirror_pairs_mask front back side →
  mInputChannelMask this ≠ AUDIO_CHANNEL_NONE →
  mirrored_source (mInputChannelMask this) frameCount src src' →
  swapped_stereo frameCount dst dst' →
  process this src dst frameCount accumulate = Some (true, out) →
  ∃ out',
    process this src' dst' frameCount accumulate = Some (true, out')
    ∧ swapped_stereo frameCount out out'.
Proof.
  intros Hreach Hmask Hne Hsrc Hdst [_ Hrun]%process_true.
  destruct (reachable_matrix_view this Hreach) as [Hview Hstride].
  rewrite (frameLoop_ext _ _ _ _ _ _ _ _ Hview), Hstride in Hrun.
  destruct (frameLoop_swap (matrixFrame this) (matrixFrame this)
    (mInputChannelCount this) accumulate frameCount src src' dst dst' out)
    as (out' & Hrun' & Hswapped); try done.
  { intros f Hf. by apply (mirrored_frames this front back side frameCount). }
  exists out'. split; [|done].
  apply process_true. split; [done|].
  by rewrite (frameLoop_ext _ _ _ _ _ _ _ _ Hview), Hstride.
Qed.

(** ** Channels without a gain *)

Lemma land_lxor_l a b c :
  Z.land (Z.lxor a b) c = Z.lxor (Z.land a c) (Z.land b c).
Proof.
  apply Z.bits_inj'. intros i _.
  rewrite !Z.lxor_spec, !Z.land_spec, Z.lxor_spec.
  by destruct (Z.testbit a i), (Z.testbit b i), (Z.testbit c i).
Qed.

Lemma classify_recognized lowestBit :
  recognized (classify lowestBit) = true →
  Z.land lowestBit RECOGNIZED_POSITIONS = lowestBit ∧ lowestBit ≠ 0.
Proof.
  unfold classify.
  repeat match goal with
  | |- context [?a =? ?b] =>
      destruct (Z.eqb_spec a b) as [->|?]; [by intros _|]
  end.
  done.
Qed.

Lemma roles_unrecognized fuel : ∀ tmp,
  Z.land tmp RECOGNIZED_POSITIONS = 0 →
  forallb (λ r, negb (recognized r)) (roles fuel tmp) = true.
Proof.
  induction fuel as [|fuel IH]; intros tmp Htmp; [done|].
  unfold roles; fold roles.
  destruct (tmp =? 0); [done|]. cbn [forallb].
  set (lowestBit := Z.land tmp (to_unsigned (- tmp))).
  assert (Z.land lowestBit RECOGNIZED_POSITIONS = 0) as Hlow.
  { unfold lowestBit.
    rewrite <- Z.land_assoc, (Z.land_comm (to_unsigned _)), Z.land_assoc.
    by rewrite Htmp. }
  apply andb_true_intro. split.
  - destruct (recognized (classify lowestBit)) eqn:Hrec; [|done].
    apply classify_recognized in Hrec as [Heq Hne]. congruence.
  - apply IH. by rewrite land_lxor_l, Htmp, Hlow.
Qed.

Lemma unrecognized_only_generic m :
  unrecognized_only m →
  is_uint32 m ∧ out_of_range m = false ∧ m ≠ AUDIO_CHANNEL_NONE
  ∧ fastChannelCount m = None.
Proof.
  intros [[Hpos Hlt] Hland].
  assert (is_uint32 m) as Hm.
  { unfold is_uint32. unfold FCC_24 in Hlt. lia. }
  split_and!.
  - done.
  - destruct (out_of_range m) eqn:Hr; [|done].
    unfold out_of_range in Hr. apply negb_true_iff, Z.eqb_neq in Hr.
    exfalso. apply Hr. apply Z.bits_inj_0. intros i.
    rewrite Z.land_spec.
    destruct (Z.testbit m i) eqn:Hbit; [|done].
    apply (bits_within_bound 24 m ltac:(lia) ltac:(unfold FCC_24 in Hlt; lia))
      in Hbit.
    change (to_unsigned (Z.lnot (Z.shiftl 1 FCC_24 - 1)))
      with (2 ^ 32 - 2 ^ 24).
    assert (i = 0 ∨ i = 1 ∨ i = 2 ∨ i = 3 ∨ i = 4 ∨ i = 5 ∨ i = 6 ∨ i = 7
      ∨ i = 8 ∨ i = 9 ∨ i = 10 ∨ i = 11 ∨ i = 12 ∨ i = 13 ∨ i = 14
      ∨ i = 15 ∨ i = 16 ∨ i = 17 ∨ i = 18 ∨ i = 19 ∨ i = 20 ∨ i = 21
      ∨ i = 22 ∨ i = 23) as Hi by lia.
    repeat (destruct Hi as [->|Hi]; [reflexivity|]). by subst i.
  - unfold AUDIO_CHANNEL_NONE. lia.
  - destruct (fastChannelCount m) as [c|] eqn:Hfast; [|done].
    apply fastChannelCount_Some in Hfast as (_ & _ & Hmask).
    by destruct Hmask as [->|[->|[->|[->| ->]]]].
Qed.

Lemma last_valid_above rs : ∀ index lastValid,
  (lastValid ≤ index)%nat →
  (lastValid ≤ last_valid index rs lastValid)%nat.
Proof.
  induction rs as [|r rs IH]; intros index lastValid Hle; simpl; [done|].
  destruct r; (etrans; [|apply IH]); lia.
Qed.

(** Every recognized channel is below the last valid index. *)
Lemma last_valid_covers rs : ∀ index lastValid i r,
  rs !! i = Some r → recognized r = true →
  (index + i < last_valid index rs lastValid)%nat.
Proof.
  induction rs as [|r0 rs IH]; intros index lastValid i r Hi Hr; [done|].
  destruct i as [|i]; simpl in *.
  - injection Hi as ->.
    assert (S index ≤ last_valid (S index) rs (S index))%nat
      by (by apply last_valid_above).
    destruct r; try done; lia.
  - specialize (IH (S index)
      match r0 with RoleOther => lastValid | _ => S index end i r Hi Hr).
    lia.
Qed.

Section unrecognized.

Local Open Scope Qc_scope.

Lemma clamp_zero : clamp 0 = 0.
Proof. by apply clamp_id. Qed.

(** C2, as the code has it.  After a [setInputChannelMask] that returns
    true the rows below the channel count hold the gains of their
    channels, so those from the last recognized channel on, up to the
    channel count, are (0,0); the rows from the channel count on are not
    written and keep what they held; and when the mask has a recognized
    channel the last valid index is that of its last recognized channel
    plus one, within the channel count, so that a mix reads no row
    beyond it.  A mask of unrecognized position bits only is accepted,
    and on a mixer whose last valid index is 0, as it is after
    construction, a later mix stores 0 in every sample of every frame
    when it does not accumulate, and the clamped old sample when it
    does, whatever the source. *)
Theorem setInputChannelMask_rows this m :
  reachable this → is_uint32 m →
  let this' := (setInputChannelMask this m).2 in
  let rs := roles 32 m in
  ((setInputChannelMask this m).1 = true →
     mInputChannelMask this' = m
     ∧ mInputChannelCount this' = length rs
     ∧ (∀ i r, rs !! i = Some r → mMatrix this' !! i = Some (gain r))
     ∧ (∀ i, (last_valid 0 rs 0 ≤ i < length rs)%nat →
          mMatrix this' !! i = Some (0, 0))
     ∧ (∀ i, (length rs ≤ i)%nat → mMatrix this' !! i = mMatrix this !! i)
     ∧ (existsb recognized rs = true →
          mLastValidChannelIndexPlusOne this' = last_valid 0 rs 0
          ∧ (mLastValidChannelIndexPlusOne this' ≤ length rs)%nat))
  ∧ (unrecognized_only m →
     (setInputChannelMask this m).1 = true
     ∧ (mLastValidChannelIndexPlusOne this = 0%nat →
        ∀ src dst frameCount accumulate,
          (2 * frameCount ≤ length dst)%nat →
          ∃ out,
            process this' src dst frameCount accumulate = Some (true, out)
            ∧ length out = length dst
            ∧ ∀ k, (k < 2 * frameCount)%nat →
                out !! k
                  = Some (if accumulate then clamp (dst !!! k) else 0))).
Proof.
  intros Hreach Hm this' rs.
  pose proof (reachable_well_formed _ (reachable_set this m Hreach Hm))
    as Hwf'. fold this' in Hwf'.
  assert ((setInputChannelMask this m).1 = true →
    mInputChannelMask this' = m
    ∧ (∀ i, (length rs ≤ i)%nat → mMatrix this' !! i = mMatrix this !! i)
    ∧ (forallb (λ r, negb (recognized r)) rs = true →
       mLastValidChannelIndexPlusOne this'
         = mLastValidChannelIndexPlusOne this)) as Hset.
  { subst this'.
    destruct (Z.eq_dec (mInputChannelMask this) m) as [Heq|Hne].
    { assert (setInputChannelMask this m = (true, this)) as ->
        by (rewrite <- Heq; apply setInputChannelMask_same).
      done. }
    destruct (out_of_range m) eqn:Hr.
    { by rewrite setInputChannelMask_refused. }
    rewrite setInputChannelMask_changed by done. cbn [fst snd].
    intros _. split_and!; [done| |].
    - intros i Hi. simpl. apply write_gains_outside. fold rs. lia.
    - intros Hun. simpl. by apply last_valid_unrecognized. }
  split.
  - intros Hok. destruct (Hset Hok) as (Hmask & Hrest & _).
    pose proof (wf_count _ Hwf') as Hcount.
    pose proof (wf_rows _ Hwf') as Hrows.
    pose proof (wf_last _ Hwf') as Hlast.
    rewrite Hmask in Hcount, Hrows, Hlast. fold rs in Hcount, Hrows, Hlast.
    split_and!; try done.
    + intros i [Hlo Hhi].
      destruct (lookup_lt_is_Some_2 rs i Hhi) as [r Hr].
      rewrite (Hrows i r Hr).
      destruct (recognized r) eqn:Hrec; [|by destruct r].
      pose proof (last_valid_covers rs 0 0 i r Hr Hrec). lia.
    + intros Hex. split; [by apply Hlast|].
      rewrite (Hlast Hex).
      destruct (last_valid_recognized rs 0 0 Hex) as [[_ Hle] _]. lia.
  - intros Hun.
    pose proof (unrecognized_only_generic m Hun) as (_ & Hr & Hne & Hfast).
    assert ((setInputChannelMask this m).1 = true) as Hok.
    { destruct (Z.eq_dec (mInputChannelMask this) m) as [Heq|Hneq].
      - rewrite <- Heq. by rewrite setInputChannelMask_same.
      - by rewrite setInputChannelMask_changed. }
    split; [done|]. intros Hzero src dst frameCount accumulate Hroom.
    destruct (Hset Hok) as (Hmask & _ & Hlast).
    specialize (Hlast (roles_unrecognized 32 m (proj2 Hun))).
    rewrite Hzero in Hlast.
    assert (∀ s, frameSums this' s = Some (0, 0)) as Hframe.
    { intros s. unfold frameSums. rewrite Hmask, Hfast.
      unfold matrixFrame. by rewrite Hlast. }
    destruct (process_total this' src dst frameCount accumulate)
      as [out Hrun]; [by rewrite Hmask| |done|].
    { intros f _. by rewrite Hframe. }
    exists out. split; [done|].
    pose proof (process_frames _ _ _ _ _ _ Hrun) as (Hlen & _ & Hin).
    split; [done|]. intros k Hk.
    destruct (stereo_offset k frameCount Hk) as (f & Hf & Hkf).
    destruct (Hin f Hf) as (ch & d0 & d1 & Hch & Hd0 & Hd1 & Hr0 & Hr1).
    rewrite Hframe in Hch. injection Hch as <-. unfold mixed in *.
    cbn [fst snd] in Hr0, Hr1. rewrite !Qcplus_0_l in Hr0, Hr1.
    destruct Hkf as [-> | ->].
    + rewrite Hr0, (list_lookup_total_correct _ _ _ Hd0).
      destruct accumulate; [done|by rewrite clamp_zero].
    + rewrite Hr1, (list_lookup_total_correct _ _ _ Hd1).
      destruct accumulate; [done|by rewrite clamp_zero].
Qed.

End unrecognized.

(** ** Worked examples *)

Lemma reachable_new m :
  is_uint32 m → reachable (ChannelMix_new garbage_rows m).
Proof. intros Hm. apply reachable_set; [by apply reachable_default|done]. Qed.

Lemma is_uint32_7point1 : is_uint32 AUDIO_CHANNEL_OUT_7POINT1.
Proof. by vm_compute. Qed.

(** The last valid index outlives its mask.  A mixer configured for 7.1
    and then for FRONT_LEFT_OF_CENTER alone, a position without a gain,
    has one input channel and still the last valid index 8 of the 7.1
    mask: a frame is summed over eight samples with the rows 7.1 left
    behind, so that the second sample of the source reaches the right
    output, and a source of one sample is read beyond its end. *)
Example stale_last_valid_index :
  let before := ChannelMix_new garbage_rows AUDIO_CHANNEL_OUT_7POINT1 in
  let after :=
    (setInputChannelMask before AUDIO_CHANNEL_OUT_FRONT_LEFT_OF_CENTER).2 in
  reachable after
  ∧ unrecognized_only AUDIO_CHANNEL_OUT_FRONT_LEFT_OF_CENTER
  ∧ (setInputChannelMask before AUDIO_CHANNEL_OUT_FRONT_LEFT_OF_CENTER).1
      = true
  ∧ mInputChannelCount after = 1%nat
  ∧ mLastValidChannelIndexPlusOne after = 8%nat
  ∧ (∃ out,
       process after
         [ratio 0 1; ratio 1 1; ratio 0 1; ratio 0 1;
          ratio 0 1; ratio 0 1; ratio 0 1; ratio 0 1]
         [ratio 0 1; ratio 0 1] 1 false = Some (true, out)
       ∧ values out = [0 # 1; 1 # 2]%Q)
  ∧ process after [ratio 1 1] [ratio 0 1; ratio 0 1] 1 false = None.
Proof.
  intros before after. split_and!.
  - apply reachable_set; [apply reachable_new, is_uint32_7point1|].
    by vm_compute.
  - split; [by vm_compute|reflexivity].
  - reflexivity.
  - reflexivity.
  - reflexivity.
  - eexists. split; [vm_compute; reflexivity|reflexivity].
  - by vm_compute.
Qed.

(** C2 as stated fails in two ways that are how the code is meant to
    work.  On a newly constructed mixer configured for
    FRONT_LEFT_OF_CENTER alone, an accumulating mix leaves the
    destination [0.5, 0.5] as it is instead of storing [0, 0].  And after
    7.1 is replaced by stereo, row 2, beyond the last recognized channel
    of the stereo mask, still holds the gain of the front center of 7.1,
    not (0,0); with the last valid index at 2 no mix reads it. *)
Lemma unrecognized_only_counterexample :
  let lone := ChannelMix_new garbage_rows
                AUDIO_CHANNEL_OUT_FRONT_LEFT_OF_CENTER in
  let before := ChannelMix_new garbage_rows AUDIO_CHANNEL_OUT_7POINT1 in
  let after := (setInputChannelMask before AUDIO_CHANNEL_OUT_STEREO).2 in
  (unrecognized_only AUDIO_CHANNEL_OUT_FRONT_LEFT_OF_CENTER
   ∧ reachable lone
   ∧ ∃ out,
       process lone [ratio 1 1] [ratio 1 2; ratio 1 2] 1 true
         = Some (true, out)
       ∧ values out = [1 # 2; 1 # 2]%Q
       ∧ out ≠ [0%Qc; 0%Qc])
  ∧ (reachable before
     ∧ (setInputChannelMask before AUDIO_CHANNEL_OUT_STEREO).1 = true
     ∧ last_valid 0 (roles 32 AUDIO_CHANNEL_OUT_STEREO) 0 = 2%nat
     ∧ mLastValidChannelIndexPlusOne after = 2%nat
     ∧ mMatrix after !! 2%nat = Some (gain RoleCenter)
     ∧ gain RoleCenter ≠ (0%Qc, 0%Qc)).
Proof.
  intros lone before after. split; split_and!.
  - split; [by vm_compute|reflexivity].
  - apply reachable_new. by vm_compute.
  - eexists. split; [vm_compute; reflexivity|].
    split; [reflexivity|]. intros Heq.
    apply (f_equal values) in Heq. by vm_compute in Heq.
  - apply reachable_new, is_uint32_7point1.
  - reflexivity.
  - reflexivity.
  - reflexivity.
  - reflexivity.
  - intros Heq. apply (f_equal (λ g, Qcanon.this g.1)) in Heq.
    by vm_compute in Heq.
Qed.

(** ** The theorems at concrete inputs *)


Lemma setInputChannelMask_rows_witness :
  let this := ChannelMix_default garbage_rows in
  let m := AUDIO_CHANNEL_OUT_FRONT_LEFT_OF_CENTER in
  reachable this ∧ is_uint32 m
  ∧ (unrecognized_only m →
     (setInputChannelMask this m).1 = true
     ∧ (mLastValidChannelIndexPlusOne this = 0%nat →
        ∀ src dst frameCount accumulate,
          (2 * frameCount ≤ length dst)%nat →
          ∃ out,
            process (setInputChannelMask this m).2 src dst frameCount
              accumulate = Some (true, out)
            ∧ length out = length dst
            ∧ ∀ k, (k < 2 * frameCount)%nat →
                out !! k
                  = Some (if accumulate then clamp (dst !!! k) else 0%Qc))).
Proof.
  intros this m.
  assert (reachable this) as Hreach by (by apply reachable_default).
  assert (is_uint32 m) as Hm by (by vm_compute).
  split; [exact Hreach|]. split; [exact Hm|].
  exact (proj2 (setInputChannelMask_rows this m Hreach Hm)).
Defined.

Lemma matrixProcess_frames_witness :
  let this := ChannelMix_new garbage_rows
                (Z.lor AUDIO_CHANNEL_OUT_STEREO
                   AUDIO_CHANNEL_OUT_FRONT_CENTER) in
  let src := [ratio 1 2; ratio 1 4; ratio 1 8;
              ratio (-1) 2; ratio 1 1; ratio 0 1] in
  let dst := [ratio 1 10; ratio 2 10; ratio 3 10; ratio 4 10; ratio 5 10] in
  ∃ dst',
    matrixProcess this src dst 2 true = Some (true, dst')
    ∧ length dst' = 5%nat
    ∧ dst' !! 4%nat = Some (ratio 5 10)
    ∧ process this src dst 2 true = Some (true, dst').
Proof.
  intros this src dst.
  destruct (matrixProcess_frames this src dst 2 true)
    as (dst' & Hrun & Hlen & _ & Hout & Hgeneric).
  - by vm_compute.
  - vm_compute. lia.
  - vm_compute. lia.
  - vm_compute. lia.
  - exists dst'. split_and!.
    + exact Hrun.
    + exact Hlen.
    + exact (Hout 4%nat ltac:(lia)).
    + apply Hgeneric. reflexivity.
Defined.

Lemma process_clamped_witness :
  let this := ChannelMix_new garbage_rows AUDIO_CHANNEL_OUT_STEREO in
  let src := [ratio 6 10; ratio 6 10] in
  let dst := [ratio 9 10; ratio 9 10] in
  process this src dst 1 true = Some (true, [1%Qc; 1%Qc])
  ∧ ∀ k, (k < 2 * 1)%nat →
      ∃ v, [1%Qc; 1%Qc] !! k = Some v ∧ (-1 ≤ v ≤ 1)%Qc.
Proof.
  intros this src dst.
  assert (process this src dst 1 true = Some (true, [1%Qc; 1%Qc])) as Hrun
    by (vm_compute; reflexivity).
  split; [exact Hrun|].
  exact (proj1 (proj2 (process_clamped this src dst 1 true _ Hrun))).
Defined.

Lemma accumulate_twice_witness :
  let this := ChannelMix_new garbage_rows AUDIO_CHANNEL_OUT_QUAD_SIDE in
  let src := [ratio 1 2; ratio 1 4; ratio (-1) 8; ratio 1 8] in
  ∃ once first second,
    process this src (replicate 2 0%Qc) 1 false = Some (true, once)
    ∧ process this src (replicate 2 0%Qc) 1 true = Some (true, first)
    ∧ process this src first 1 true = Some (true, second)
    ∧ second = (λ x, 2 * x)%Qc <$> once.
Proof.
  intros this src.
  destruct (process this src (replicate 2 0%Qc) 1 false)
    as [[[] once]|] eqn:Honce; [|by vm_compute in Honce..].
  destruct (accumulate_twice this src 1 2 once Honce)
    as (first & second & Hfirst & Hsecond & Hdouble).
  - intros f ch Hf Hch.
    assert (f = 0%nat) as -> by lia.
    vm_compute in Hch. injection Hch as <-.
    repeat split; by vm_compute.
  - by exists once, first, second.
Defined.

Lemma left_right_symmetry_witness :
  let this := ChannelMix_new garbage_rows AUDIO_CHANNEL_OUT_QUAD_BACK in
  let src := [ratio 1 2; ratio 1 4; ratio 1 8; ratio 0 1] in
  let src' := [ratio 1 4; ratio 1 2; ratio 0 1; ratio 1 8] in
  let dst := [ratio 3 10; ratio 1 10; ratio 7 10] in
  let dst' := [ratio 1 10; ratio 3 10; ratio 7 10] in
  ∃ out out',
    process this src dst 1 true = Some (true, out)
    ∧ process this src' dst' 1 true = Some (true, out')
    ∧ swapped_stereo 1 out out'.
Proof.
  intros this src src' dst dst'.
  destruct (process this src dst 1 true)
    as [[[] out]|] eqn:Hrun; [|by vm_compute in Hrun..].
  destruct (left_right_symmetry this true true false src src' dst dst' 1
    true out) as (out' & Hrun' & Hswapped).
  - apply reachable_new. by vm_compute.
  - reflexivity.
  - by vm_compute.
  - intros f i Hf Hi. assert (f = 0%nat) as -> by lia.
    do 4 (destruct i as [|i]; [reflexivity|]).
    vm_compute in Hi. lia.
  - split_and!.
    + reflexivity.
    + intros f Hf. assert (f = 0%nat) as -> by lia. by split.
    + intros k Hk. do 2 (destruct k as [|k]; [lia|]). reflexivity.
  - exact Hrun.
  - by exists out, out'.
Defined.

(** * Further properties *)

(** ** The decoding loop visits the set bits in ascending order *)

Section lowest_bit_exact.

(** Above its lowest set bit, [-tmp] is the complement of [tmp]. *)
Lemma opp_above_lowest_bit tmp j i :
  0 ≤ j < i →
  (∀ k, k < j → Z.testbit tmp k = false) →
  Z.testbit tmp j = true →
  Z.testbit (- tmp) i = negb (Z.testbit tmp i).
Proof.
  intros Hji Hlow Hbit.
  rewrite Z.bits_opp by lia. f_equal.
  assert (2 ^ j > 0) as Hpow by (apply Z.lt_gt, Z.pow_pos_nonneg; lia).
  set (t := tmp / 2 ^ j).
  assert (tmp = t * 2 ^ j) as Htmp.
  { assert (tmp mod 2 ^ j = 0) as Hmod.
    { apply Z.bits_inj_0. intros k.
      destruct (Z_lt_dec k 0) as [Hneg|Hnn]; [by apply Z.testbit_neg_r|].
      destruct (Z_lt_dec k j) as [Hlt|Hge].
      - rewrite Z.mod_pow2_bits_low by lia. apply Hlow. lia.
      - apply Z.mod_pow2_bits_high. lia. }
    pose proof (Z.div_mod tmp (2 ^ j)) as Hdm. unfold t. lia. }
  assert (Z.testbit t 0 = true) as Hodd.
  { unfold t. by rewrite Z.div_pow2_bits, Z.add_0_l by lia. }
  assert (t = 2 * (t / 2) + 1) as Ht.
  { pose proof (Z.div2_odd t) as Hdiv. rewrite Z.div2_div in Hdiv.
    rewrite Z.bit0_odd in Hodd. rewrite Hodd in Hdiv.
    change (Z.b2z true) with 1 in Hdiv. exact Hdiv. }
  assert (Z.pred tmp / 2 ^ j = t - 1) as Hpred.
  { symmetry. apply (Z.div_unique_pos _ _ _ (2 ^ j - 1)); lia. }
  replace i with ((i - j) + j) by lia.
  rewrite <- !Z.div_pow2_bits by lia. rewrite Hpred. fold t.
  replace (i - j) with (Z.succ (i - j - 1)) by lia.
  rewrite Ht at 2. rewrite Z.testbit_odd_succ by lia.
  replace (t - 1) with (2 * (t / 2)) by lia.
  by rewrite Z.testbit_even_succ by lia.
Qed.

(** The lowest bit the loop isolates is the bit at the lowest set
    position. *)
Lemma lowest_bit_exact tmp j :
  0 ≤ j → bits_within j 32 tmp → Z.testbit tmp j = true →
  Z.land tmp (to_unsigned (- tmp)) = 2 ^ j.
Proof.
  intros Hj Hw Hbit.
  pose proof (Hw j Hbit) as Hj32.
  assert (∀ k, k < j → Z.testbit tmp k = false) as Hlow.
  { intros k Hk. destruct (Z.testbit tmp k) eqn:Hk'; [|done].
    apply Hw in Hk'. lia. }
  apply Z.bits_inj'. intros i Hi.
  rewrite Z.land_spec, Z.pow2_bits_eqb by lia.
  destruct (Z.eqb_spec j i) as [<-|Hne].
  - rewrite Hbit, to_unsigned_bits by lia. simpl.
    by apply opp_lowest_bit.
  - destruct (Z.testbit tmp i) eqn:Hti; [|done]. simpl.
    pose proof (Hw i Hti) as Hrange.
    rewrite to_unsigned_bits by lia.
    rewrite (opp_above_lowest_bit tmp j i) by (done || lia).
    by rewrite Hti.
Qed.

Lemma set_bits_from_ext n : ∀ lo m m',
  (∀ i, lo ≤ i → Z.testbit m i = Z.testbit m' i) →
  set_bits_from n lo m = set_bits_from n lo m'.
Proof.
  induction n as [|n IH]; intros lo m m' Hext; simpl; [done|].
  rewrite (Hext lo) by lia.
  rewrite (IH (lo + 1) m m') by (intros i Hi; apply Hext; lia). done.
Qed.

Lemma channel_bits_set_bits_from n : ∀ lo tmp fuel,
  0 ≤ lo → lo + Z.of_nat n = 32 → bits_within lo 32 tmp →
  (n ≤ fuel)%nat →
  channel_bits fuel tmp = set_bits_from n lo tmp.
Proof.
  induction n as [|n IH]; intros lo tmp fuel Hlo Hn Hw Hfuel.
  - rewrite (bits_within_empty lo 32 tmp) by (done || lia).
    by destruct fuel.
  - simpl. destruct (Z.testbit tmp lo) eqn:Hbit.
    + destruct fuel as [|fuel]; [lia|].
      unfold channel_bits; fold channel_bits.
      assert (tmp ≠ 0) as Hne by (intros ->; by rewrite Z.bits_0 in Hbit).
      apply Z.eqb_neq in Hne. rewrite Hne. cbv zeta.
      pose proof (clear_lowest_bit_within lo 32 tmp Hlo ltac:(lia) Hw) as Hw'.
      rewrite (lowest_bit_exact tmp lo) in * by done.
      f_equal.
      rewrite (IH (lo + 1) (Z.lxor tmp (2 ^ lo)) fuel) by (done || lia).
      apply set_bits_from_ext. intros i Hi.
      rewrite Z.lxor_spec, Z.pow2_bits_eqb by lia.
      destruct (Z.eqb_spec lo i); [lia|]. by rewrite xorb_false_r.
    + apply (IH (lo + 1)); [lia|lia| |lia].
      intros i Hi. pose proof (Hw i Hi) as Hrange.
      destruct (Z.eq_dec i lo) as [->|]; [congruence|lia].
Qed.

End lowest_bit_exact.

(** The channels the loop of [decode] meets are the set bits of the mask
    in ascending order, and their roles are those of these bits. *)
Lemma channel_bits_set_bits m :
  is_uint32 m → channel_bits 32 m = set_bits m.
Proof.
  intros Hm. apply (channel_bits_set_bits_from 32 0 m 32); try lia.
  by apply bits_within_bound.
Qed.

Lemma roles_set_bits m :
  is_uint32 m → roles 32 m = classify <$> set_bits m.
Proof.
  intros Hm. by rewrite roles_channel_bits, channel_bits_set_bits.
Qed.

(** ** Which masks are accepted, and what a configured mixer holds *)

Lemma in_range_accepted m : 0 ≤ m < 2 ^ FCC_24 → out_of_range m = false.
Proof.
  intros Hm. destruct (out_of_range m) eqn:Hr; [|done].
  unfold out_of_range in Hr. apply negb_true_iff, Z.eqb_neq in Hr.
  exfalso. apply Hr. apply Z.bits_inj_0. intros i.
  rewrite Z.land_spec.
  destruct (Z.testbit m i) eqn:Hbit; [|done].
  apply (bits_within_bound 24 m ltac:(lia) Hm) in Hbit.
  change (to_unsigned (Z.lnot (Z.shiftl 1 FCC_24 - 1)))
    with (2 ^ 32 - 2 ^ 24).
  assert (i = 0 ∨ i = 1 ∨ i = 2 ∨ i = 3 ∨ i = 4 ∨ i = 5 ∨ i = 6 ∨ i = 7
    ∨ i = 8 ∨ i = 9 ∨ i = 10 ∨ i = 11 ∨ i = 12 ∨ i = 13 ∨ i = 14
    ∨ i = 15 ∨ i = 16 ∨ i = 17 ∨ i = 18 ∨ i = 19 ∨ i = 20 ∨ i = 21
    ∨ i = 22 ∨ i = 23) as Hi by lia.
  repeat (destruct Hi as [->|Hi]; [reflexivity|]). by subst i.
Qed.

(** The three ways a call of [setInputChannelMask] can go. *)
Lemma setInputChannelMask_cases this m :
  is_uint32 m →
  (mInputChannelMask this = m ∧ setInputChannelMask this m = (true, this))
  ∨ (mInputChannelMask this ≠ m ∧ 2 ^ FCC_24 ≤ m
     ∧ setInputChannelMask this m = (false, this))
  ∨ (mInputChannelMask this ≠ m ∧ 0 ≤ m < 2 ^ FCC_24
     ∧ setInputChannelMask this m =
         (true,
          mkChannelMix (write_gains 0 (roles 32 m) (mMatrix this)) m
            (last_valid 0 (roles 32 m) (mLastValidChannelIndexPlusOne this))
            (length (roles 32 m)))).
Proof.
  intros Hm.
  destruct (Z.eq_dec (mInputChannelMask this) m) as [Heq|Hne].
  { left. split; [done|]. rewrite <- Heq. apply setInputChannelMask_same. }
  right. destruct (out_of_range m) eqn:Hr.
  - left. split; [done|].
    split; [|by apply setInputChannelMask_refused].
    destruct (Z_le_dec (2 ^ FCC_24) m) as [|Hlt]; [done|].
    rewrite in_range_accepted in Hr; [done|]. destruct Hm. lia.
  - right. split; [done|]. split; [by apply out_of_range_false|].
    by apply setInputChannelMask_changed.
Qed.

(** X1. The decoding loop of [setInputChannelMask] ends by itself: on a
    32-bit value it is through within 32 turns, and any further turns
    allowed change neither the matrix, nor the last valid index, nor the
    channel count. *)
Theorem decode_terminates tmp index matrix lastValid extra :
  is_uint32 tmp →
  decode (32 + extra) tmp index matrix lastValid
    = decode 32 tmp index matrix lastValid
  ∧ (decode 32 tmp index matrix lastValid).2
      = (index + length (set_bits tmp))%nat.
Proof.
  intros Htmp. rewrite !decode_roles. split.
  - by rewrite (roles_fuel_enough 32 0 tmp extra)
      by (done || (apply bits_within_bound; done) || lia).
  - simpl. by rewrite roles_set_bits, length_fmap.
Qed.

Lemma decode_terminates_witness :
  decode (32 + 7) AUDIO_CHANNEL_OUT_5POINT1_SIDE 0 garbage_rows 0
    = decode 32 AUDIO_CHANNEL_OUT_5POINT1_SIDE 0 garbage_rows 0
  ∧ (decode 32 AUDIO_CHANNEL_OUT_5POINT1_SIDE 0 garbage_rows 0).2
      = (0 + length (set_bits AUDIO_CHANNEL_OUT_5POINT1_SIDE))%nat.
Proof.
  apply (decode_terminates AUDIO_CHANNEL_OUT_5POINT1_SIDE 0 garbage_rows 0 7).
  by vm_compute.
Defined.

(** X2. What [setInputChannelMask] decodes.  On a mixer in use, a mask
    of position bits is accepted and becomes the mask of the mixer; the
    channel count is the number of its set bits, at most 24; and row [i]
    of the matrix holds the gain of the role of the [i]-th set bit,
    counting from the lowest: the sample order of a frame is the
    ascending order of the bits. *)
Theorem setInputChannelMask_decodes this m :
  reachable this → 0 ≤ m < 2 ^ FCC_24 →
  let this' := (setInputChannelMask this m).2 in
  (setInputChannelMask this m).1 = true
  ∧ mInputChannelMask this' = m
  ∧ mInputChannelCount this' = length (set_bits m)
  ∧ (mInputChannelCount this' ≤ 24)%nat
  ∧ ∀ i bit,
      set_bits m !! i = Some bit →
      mMatrix this' !! i = Some (gain (classify bit)).
Proof.
  intros Hreach Hrange this'.
  assert (is_uint32 m) as Hm by (unfold is_uint32, FCC_24 in *; lia).
  pose proof (reachable_well_formed _ (reachable_set this m Hreach Hm))
    as Hwf'. fold this' in Hwf'.
  assert ((setInputChannelMask this m).1 = true
          ∧ mInputChannelMask this' = m) as [Hok Hmask].
  { subst this'.
    destruct (setInputChannelMask_cases this m Hm)
      as [[Heq ->]|[(_ & Hbig & _)|(_ & _ & ->)]]; [done|lia|done]. }
  pose proof (wf_count _ Hwf') as Hcount.
  pose proof (wf_rows _ Hwf') as Hrows.
  rewrite Hmask in Hcount, Hrows.
  rewrite roles_set_bits in Hcount, Hrows by done.
  rewrite length_fmap in Hcount.
  split_and!; try done.
  - rewrite Hcount, <- (length_fmap classify), <- roles_set_bits by done.
    by apply roles_in_range.
  - intros i bit Hbit. apply Hrows.
    by rewrite list_lookup_fmap, Hbit.
Qed.

Lemma setInputChannelMask_decodes_witness :
  let this := ChannelMix_new garbage_rows AUDIO_CHANNEL_OUT_STEREO in
  let m := AUDIO_CHANNEL_OUT_5POINT1_BACK in
  (setInputChannelMask this m).1 = true
  ∧ mInputChannelMask (setInputChannelMask this m).2 = m
  ∧ mInputChannelCount (setInputChannelMask this m).2 = length (set_bits m)
  ∧ (mInputChannelCount (setInputChannelMask this m).2 ≤ 24)%nat
  ∧ ∀ i bit,
      set_bits m !! i = Some bit →
      mMatrix (setInputChannelMask this m).2 !! i
        = Some (gain (classify bit)).
Proof.
  intros this m.
  apply (setInputChannelMask_decodes this m).
  - apply reachable_new. by vm_compute.
  - by vm_compute.
Defined.

(** X3. On a mixer in use [setInputChannelMask] returns true exactly for
    the masks without a bit at position 24 or above; when it returns
    true [getInputChannelMask] gives the mask just set, and when it
    returns false the mixer is as it was. *)
Theorem setInputChannelMask_accepts this m :
  reachable this → is_uint32 m →
  ((setInputChannelMask this m).1 = true ↔ m < 2 ^ FCC_24)
  ∧ ((setInputChannelMask this m).1 = true →
     getInputChannelMask (setInputChannelMask this m).2 = m)
  ∧ ((setInputChannelMask this m).1 = false →
     (setInputChannelMask this m).2 = this).
Proof.
  intros Hreach Hm.
  pose proof (wf_mask _ (reachable_well_formed _ Hreach)) as Hmask.
  destruct (setInputChannelMask_cases this m Hm)
    as [[Heq ->]|[(_ & Hbig & ->)|(_ & Hsmall & ->)]]; simpl.
  - split_and!; [|done|done]. split; [|done]. intros _. lia.
  - split_and!; [|done|done]. split; [done|lia].
  - split_and!; [|done|done]. split; [lia|done].
Qed.

Lemma setInputChannelMask_accepts_witness :
  let this := ChannelMix_new garbage_rows AUDIO_CHANNEL_OUT_QUAD_BACK in
  let m := 2 ^ 24 in
  ((setInputChannelMask this m).1 = true ↔ m < 2 ^ FCC_24)
  ∧ ((setInputChannelMask this m).1 = true →
     getInputChannelMask (setInputChannelMask this m).2 = m)
  ∧ ((setInputChannelMask this m).1 = false →
     (setInputChannelMask this m).2 = this).
Proof.
  intros this m.
  apply (setInputChannelMask_accepts this m).
  - apply reachable_new. by vm_compute.
  - by vm_compute.
Defined.

(** X4. The constructor taking a mask: the new mixer has that mask when
    it has no bit at position 24 or above, and otherwise has no mask, so
    that every mix on it returns false and leaves the destination
    alone. *)
Theorem ChannelMix_new_mask garbage m :
  is_uint32 m →
  getInputChannelMask (ChannelMix_new garbage m)
    = (if m <? 2 ^ FCC_24 then m else AUDIO_CHANNEL_NONE)
  ∧ (2 ^ FCC_24 ≤ m →
     ∀ src dst frameCount accumulate,
       process (ChannelMix_new garbage m) src dst frameCount accumulate
         = Some (false, dst)).
Proof.
  intros Hm. unfold ChannelMix_new.
  assert (getInputChannelMask
            (setInputChannelMask (ChannelMix_default garbage) m).2
          = if m <? 2 ^ FCC_24 then m else AUDIO_CHANNEL_NONE) as Hmask.
  { destruct (setInputChannelMask_cases (ChannelMix_default garbage) m Hm)
      as [[Heq ->]|[(_ & Hbig & ->)|(_ & Hsmall & ->)]]; simpl.
    - simpl in Heq. subst m. done.
    - destruct (Z.ltb_spec m (2 ^ FCC_24)); [lia|done].
    - destruct (Z.ltb_spec m (2 ^ FCC_24)); [done|lia]. }
  split; [done|]. intros Hbig src dst frameCount accumulate.
  destruct (Z.ltb_spec m (2 ^ FCC_24)); [lia|].
  rewrite process_frameLoop.
  unfold getInputChannelMask in Hmask. by rewrite Hmask.
Qed.

Lemma ChannelMix_new_mask_witness :
  getInputChannelMask (ChannelMix_new garbage_rows 0x80000001)
    = (if 0x80000001 <? 2 ^ FCC_24 then 0x80000001 else AUDIO_CHANNEL_NONE)
  ∧ (2 ^ FCC_24 ≤ 0x80000001 →
     ∀ src dst frameCount accumulate,
       process (ChannelMix_new garbage_rows 0x80000001) src dst frameCount
         accumulate = Some (false, dst)).
Proof.
  apply (ChannelMix_new_mask garbage_rows 0x80000001). by vm_compute.
Defined.

(** X5. [process] with a mask as fifth argument.  For a mask with a bit
    at position 24 or above it returns false and changes neither the
    destination nor the mixer; for any other mask it reconfigures the
    mixer, which keeps that mask afterwards, and returns what the mix of
    the reconfigured mixer returns. *)
Theorem process_mask_configures this src dst frameCount accumulate m :
  reachable this → is_uint32 m →
  (2 ^ FCC_24 ≤ m →
   process_mask this src dst frameCount accumulate m
     = (Some (false, dst), this))
  ∧ (m < 2 ^ FCC_24 →
     ∃ this',
       setInputChannelMask this m = (true, this')
       ∧ mInputChannelMask this' = m
       ∧ process_mask this src dst frameCount accumulate m
           = (process this' src dst frameCount accumulate, this')).
Proof.
  intros Hreach Hm.
  pose proof (wf_mask _ (reachable_well_formed _ Hreach)) as Hmask.
  unfold process_mask.
  destruct (setInputChannelMask_cases this m Hm)
    as [[Heq ->]|[(_ & Hbig & ->)|(_ & Hsmall & ->)]].
  - split; [lia|]. intros _. by exists this.
  - split; [done|lia].
  - split; [lia|]. intros _. by eexists.
Qed.

Lemma process_mask_configures_witness :
  let this := ChannelMix_new garbage_rows AUDIO_CHANNEL_OUT_7POINT1 in
  let src := [ratio 1 2; ratio 1 4] in
  let dst := [ratio 1 8; ratio 1 8] in
  (2 ^ FCC_24 ≤ 0x1000003 →
   process_mask this src dst 1 false 0x1000003 = (Some (false, dst), this))
  ∧ (0x1000003 < 2 ^ FCC_24 →
     ∃ this',
       setInputChannelMask this 0x1000003 = (true, this')
       ∧ mInputChannelMask this' = 0x1000003
       ∧ process_mask this src dst 1 false 0x1000003
           = (process this' src dst 1 false, this')).
Proof.
  intros this src dst.
  apply (process_mask_configures this src dst 1 false 0x1000003).
  - apply reachable_new. by vm_compute.
  - by vm_compute.
Defined.

(** ** Masks with a recognized position *)

Lemma existsb_recognized_from n : ∀ lo m i,
  lo ≤ i < lo + Z.of_nat n →
  Z.testbit m i = true →
  recognized (classify (2 ^ i)) = true →
  existsb recognized (classify <$> set_bits_from n lo m) = true.
Proof.
  induction n as [|n IH]; intros lo m i Hi Hbit Hrec; [lia|].
  cbn [set_bits_from]. destruct (Z.eq_dec lo i) as [->|Hne].
  - rewrite Hbit, fmap_cons. cbn [existsb]. by rewrite Hrec.
  - assert (existsb recognized (classify <$> set_bits_from n (lo + 1) m)
      = true) as Hrest by (apply (IH (lo + 1) m i); (done || lia)).
    destruct (Z.testbit m lo); [|done]. rewrite fmap_cons. cbn [existsb].
    rewrite Hrest. apply orb_true_r.
Qed.

Lemma recognized_position i :
  0 ≤ i < 32 → Z.testbit RECOGNIZED_POSITIONS i = true →
  recognized (classify (2 ^ i)) = true.
Proof.
  intros Hi Hbit.
  assert (i = 0 ∨ i = 1 ∨ i = 2 ∨ i = 3 ∨ i = 4 ∨ i = 5 ∨ i = 6 ∨ i = 7
    ∨ i = 8 ∨ i = 9 ∨ i = 10 ∨ i = 11 ∨ i = 12 ∨ i = 13 ∨ i = 14
    ∨ i = 15 ∨ i = 16 ∨ i = 17 ∨ i = 18 ∨ i = 19 ∨ i = 20 ∨ i = 21
    ∨ i = 22 ∨ i = 23 ∨ i = 24 ∨ i = 25 ∨ i = 26 ∨ i = 27 ∨ i = 28
    ∨ i = 29 ∨ i = 30 ∨ i = 31) as Hcases by lia.
  repeat (destruct Hcases as [->|Hcases]; [by vm_compute in Hbit |- *|]).
  subst i. by vm_compute in Hbit |- *.
Qed.

(** The decoder meets a recognized channel exactly when the mask has a
    recognized position bit. *)
Lemma recognized_roles m :
  is_uint32 m →
  existsb recognized (roles 32 m) = true
  ↔ Z.land m RECOGNIZED_POSITIONS ≠ 0.
Proof.
  intros Hm. split.
  - intros Hex Hland.
    pose proof (roles_unrecognized 32 m Hland) as Hall.
    assert (∀ rs, forallb (λ r, negb (recognized r)) rs = true →
      existsb recognized rs = false) as Hno.
    { induction rs as [|r rs IH]; [done|]. simpl.
      intros [Hr Hrs]%andb_prop. rewrite (IH Hrs).
      by destruct (recognized r). }
    rewrite (Hno _ Hall) in Hex. done.
  - intros Hland.
    destruct (existsb recognized (roles 32 m)) eqn:Hex; [done|].
    exfalso. apply Hland. apply Z.bits_inj_0. intros i.
    rewrite Z.land_spec.
    destruct (Z.testbit m i) eqn:Hbit; [|done].
    destruct (Z.testbit RECOGNIZED_POSITIONS i) eqn:Hrec; [|done].
    pose proof (bits_within_bound 32 m ltac:(lia) Hm i Hbit) as Hi.
    assert (existsb recognized (roles 32 m) = true) as Hyes.
    { rewrite roles_set_bits by done.
      apply (existsb_recognized_from 32 0 m i); [lia|exact Hbit|].
      apply recognized_position; [lia|exact Hrec]. }
    congruence.
Qed.

(** On a mixer in use whose mask has a recognized position the last
    valid index is within the channel count, and a frame is summed with
    the gains of the channels of the mask. *)
Lemma recognized_mask_frames this :
  reachable this →
  Z.land (mInputChannelMask this) RECOGNIZED_POSITIONS ≠ 0 →
  (mLastValidChannelIndexPlusOne this ≤ mInputChannelCount this)%nat
  ∧ mLastValidChannelIndexPlusOne this
      = last_valid 0 (roles 32 (mInputChannelMask this)) 0
  ∧ ∀ src,
      frameSums this src
      = matrixRow (gain <$> roles 32 (mInputChannelMask this)) src
          (last_valid 0 (roles 32 (mInputChannelMask this)) 0) 0
          (0%Qc, 0%Qc).
Proof.
  intros Hreach Hland.
  pose proof (reachable_well_formed _ Hreach) as Hwf.
  assert (is_uint32 (mInputChannelMask this)) as Hm.
  { pose proof (wf_mask _ Hwf). unfold is_uint32, FCC_24 in *. lia. }
  apply (recognized_roles _ Hm) in Hland as Hex.
  pose proof (wf_last _ Hwf Hex) as Hlast.
  destruct (last_valid_recognized _ 0 0 Hex) as [[_ Hle] _].
  assert (mLastValidChannelIndexPlusOne this ≤ mInputChannelCount this)%nat
    as Hbound by (rewrite Hlast, (wf_count _ Hwf); lia).
  split_and!; try done.
  intros src. destruct (reachable_matrix_view this Hreach) as [-> _].
  rewrite matrixFrame_roles by done. by rewrite Hlast.
Qed.

(** X6. On a mixer in use whose mask has a recognized position, a source
    of [frameCount] frames of [mInputChannelCount] samples and a
    destination with room for [frameCount] stereo frames are all the mix
    touches: it stays within both buffers and returns true, with a
    destination of the same length. *)
Theorem process_within_buffers this src dst frameCount accumulate :
  reachable this →
  Z.land (mInputChannelMask this) RECOGNIZED_POSITIONS ≠ 0 →
  (frameCount * mInputChannelCount this ≤ length src)%nat →
  (2 * frameCount ≤ length dst)%nat →
  ∃ out,
    process this src dst frameCount accumulate = Some (true, out)
    ∧ length out = length dst.
Proof.
  intros Hreach Hland Hsrc Hdst.
  pose proof (reachable_well_formed _ Hreach) as Hwf.
  destruct (recognized_mask_frames this Hreach Hland) as (Hbound & _ & _).
  destruct (reachable_matrix_view this Hreach) as [Hview Hstride].
  destruct (process_total this src dst frameCount accumulate)
    as [out Hrun]; [| |done|].
  - intros Hnone. rewrite Hnone in Hland. by apply Hland.
  - intros f Hf. rewrite Hview, Hstride.
    rewrite matrixFrame_sums; [done| |].
    + rewrite (wf_length _ Hwf). apply (wf_last_bound _ Hwf).
    + assert (S f * mInputChannelCount this
              ≤ frameCount * mInputChannelCount this)%nat
        by (apply Nat.mul_le_mono_r; lia).
      lia.
  - exists out. split; [done|].
    by apply process_frames in Hrun as (? & _).
Qed.

Lemma process_within_buffers_witness :
  let this :=
    (setInputChannelMask
       (ChannelMix_new garbage_rows AUDIO_CHANNEL_OUT_7POINT1)
       (Z.lor AUDIO_CHANNEL_OUT_STEREO
          AUDIO_CHANNEL_OUT_FRONT_LEFT_OF_CENTER)).2 in
  let src := [ratio 1 2; ratio 1 4; ratio 1 8;
              ratio 1 3; ratio 1 5; ratio 1 7] in
  let dst := [ratio 0 1; ratio 0 1; ratio 0 1; ratio 0 1] in
  ∃ out,
    process this src dst 2 true = Some (true, out)
    ∧ length out = length dst.
Proof.
  intros this src dst.
  apply (process_within_buffers this src dst 2 true).
  - apply reachable_set; [apply reachable_new, is_uint32_7point1|].
    by vm_compute.
  - by vm_compute.
  - vm_compute. lia.
  - vm_compute. lia.
Defined.

(** X7. What a mix gives depends on the mask alone, not on what the
    mixer was configured for before: two mixers in use with the same
    mask, NONE or one with a recognized position, return the same for
    the same buffers, frame count and accumulate flag. *)
Theorem process_depends_on_mask this other src dst frameCount accumulate :
  reachable this → reachable other →
  mInputChannelMask this = mInputChannelMask other →
  mInputChannelMask this = AUDIO_CHANNEL_NONE
  ∨ Z.land (mInputChannelMask this) RECOGNIZED_POSITIONS ≠ 0 →
  process this src dst frameCount accumulate
    = process other src dst frameCount accumulate.
Proof.
  intros Hthis Hother Hmask Hkind.
  rewrite !process_frameLoop, <- Hmask.
  destruct Hkind as [->|Hland]; [done|].
  destruct (mInputChannelMask this =? AUDIO_CHANNEL_NONE); [done|].
  pose proof Hland as Hland'. rewrite Hmask in Hland'.
  destruct (recognized_mask_frames this Hthis Hland) as (_ & _ & Hf1).
  destruct (recognized_mask_frames other Hother Hland') as (_ & _ & Hf2).
  destruct (reachable_matrix_view this Hthis) as [_ ->].
  destruct (reachable_matrix_view other Hother) as [_ ->].
  rewrite (wf_count _ (reachable_well_formed _ Hthis)).
  rewrite (wf_count _ (reachable_well_formed _ Hother)).
  rewrite <- Hmask.
  rewrite (frameLoop_ext (frameSums this) (frameSums other)); [done|].
  intros s. by rewrite Hf1, Hf2, Hmask.
Qed.

Lemma process_depends_on_mask_witness :
  let this := ChannelMix_new garbage_rows AUDIO_CHANNEL_OUT_STEREO in
  let other :=
    (setInputChannelMask
       (ChannelMix_new (replicate 24 (0%Qc, 0%Qc)) AUDIO_CHANNEL_OUT_7POINT1)
       AUDIO_CHANNEL_OUT_STEREO).2 in
  let src := [ratio 1 2; ratio 1 4] in
  let dst := [ratio 1 8; ratio 1 8] in
  process this src dst 1 true = process other src dst 1 true.
Proof.
  intros this other src dst.
  apply (process_depends_on_mask this other src dst 1 true).
  - apply reachable_new. by vm_compute.
  - apply reachable_set; [|by vm_compute].
    apply reachable_set; [by apply reachable_default|by vm_compute].
  - reflexivity.
  - right. by vm_compute.
Defined.

(** ** Mixing a buffer in pieces *)

Section frame_loop_pieces.

Variable frame : list sample → option (sample * sample).
Variable stride : nat.
Variable accumulate : bool.

(** [n1 + n2] frames are [n1] frames and then [n2] more, from where the
    two pointers have got to. *)
Lemma frameLoop_split n1 : ∀ n2 src dst dp,
  frameLoop frame stride accumulate src dst dp (n1 + n2)
  = (dst' ← frameLoop frame stride accumulate src dst dp n1;
     frameLoop frame stride accumulate (drop (n1 * stride) src) dst'
       (dp + 2 * n1) n2).
Proof.
  induction n1 as [|n1 IH]; intros n2 src dst dp.
  - cbn [frameLoop Nat.add Nat.mul]. simpl.
    by rewrite Nat.add_0_r.
  - cbn [frameLoop Nat.add].
    destruct (frame src) as [ch|]; [|done]. simpl.
    destruct (dst !! dp) as [d0|]; [|done]. simpl.
    destruct (dst !! (dp + 1)%nat) as [d1|]; [|done]. simpl.
    rewrite IH, drop_drop.
    replace (dp + 2 + 2 * n1)%nat with (dp + S (n1 + S (n1 + 0)))%nat by lia.
    done.
Qed.

(** Samples before the destination pointer play no part. *)
Lemma frameLoop_prefix n : ∀ pre src dst dp,
  frameLoop frame stride accumulate src (pre ++ dst) (length pre + dp) n
  = (pre ++.) <$> frameLoop frame stride accumulate src dst dp n.
Proof.
  induction n as [|n IH]; intros pre src dst dp; [done|].
  assert (∀ k (l : list Qc), (pre ++ l) !! (length pre + k)%nat = l !! k)
    as Hlook.
  { intros k l. rewrite lookup_app_r by lia. f_equal. lia. }
  cbn [frameLoop].
  destruct (frame src) as [ch|]; [|done]. simpl.
  rewrite <- Nat.add_assoc, !Hlook.
  destruct (dst !! dp) as [d0|]; [|done]. simpl.
  destruct (dst !! (dp + 1)%nat) as [d1|]; [|done]. simpl.
  rewrite insert_app_r, insert_app_r.
  rewrite <- Nat.add_assoc. apply IH.
Qed.

(** Samples after those the loop gets to play no part either. *)
Lemma frameLoop_suffix n : ∀ suffix src dst dp out,
  frameLoop frame stride accumulate src dst dp n = Some out →
  frameLoop frame stride accumulate src (dst ++ suffix) dp n
  = Some (out ++ suffix).
Proof.
  induction n as [|n IH]; intros suffix src dst dp out Hrun.
  - simpl in *. by injection Hrun as <-.
  - cbn [frameLoop] in *.
    destruct (frame src) as [ch|]; [|done]. simpl in *.
    destruct (dst !! dp) as [d0|] eqn:Hd0; [|done]. simpl in Hrun.
    destruct (dst !! (dp + 1)%nat) as [d1|] eqn:Hd1; [|done]. simpl in Hrun.
    rewrite (lookup_app_l_Some _ _ _ _ Hd0). simpl.
    rewrite (lookup_app_l_Some _ _ _ _ Hd1). simpl.
    apply lookup_lt_Some in Hd0, Hd1.
    rewrite <- (IH suffix _ _ _ _ Hrun).
    rewrite (insert_app_l dst suffix dp) by done.
    by rewrite insert_app_l by (by rewrite length_insert).
Qed.

End frame_loop_pieces.

(** X8. Mixing in two pieces is mixing at once: when the first [n1]
    frames are mixed into the first [2 * n1] destination samples, and
    the next [n2] frames, [n1] strides further in the source, into the
    destination after them, the two results one after the other are what
    one mix of [n1 + n2] frames gives. *)
Theorem process_chunks this src dst n1 n2 accumulate out1 out2 :
  process this src (take (2 * n1) dst) n1 accumulate = Some (true, out1) →
  process this (drop (n1 * frameStride this) src) (drop (2 * n1) dst) n2
    accumulate = Some (true, out2) →
  process this src dst (n1 + n2) accumulate = Some (true, out1 ++ out2).
Proof.
  intros [Hmask Hrun1]%process_true [_ Hrun2]%process_true.
  apply process_true. split; [done|].
  assert (length out1 = (2 * n1)%nat) as Hlen.
  { destruct n1 as [|n1'].
    - simpl in Hrun1. injection Hrun1 as <-. by rewrite take_0.
    - pose proof (frameLoop_room _ _ _ _ _ _ _ _ Hrun1 ltac:(lia)) as Hroom.
      apply frameLoop_length in Hrun1.
      rewrite length_take in *. lia. }
  rewrite frameLoop_split.
  rewrite <- (take_drop (2 * n1) dst) at 1.
  rewrite (frameLoop_suffix _ _ _ _ _ _ _ _ _ Hrun1).
  pose proof (frameLoop_prefix (frameSums this) (frameStride this)
    accumulate n2 out1 (drop (n1 * frameStride this) src)
    (drop (2 * n1) dst) 0) as Hpre.
  rewrite Hrun2, Nat.add_0_r, Hlen in Hpre. exact Hpre.
Qed.

Lemma process_chunks_witness :
  let this := ChannelMix_new garbage_rows AUDIO_CHANNEL_OUT_STEREO in
  let src := [ratio 1 2; ratio 1 4; ratio 1 8; ratio 1 16;
              ratio (-1) 2; ratio 3 4] in
  let dst := [ratio 1 10; ratio 2 10; ratio 3 10; ratio 4 10;
              ratio 5 10; ratio 6 10; ratio 7 10] in
  ∃ out1 out2,
    process this src (take 2 dst) 1 true = Some (true, out1)
    ∧ process this (drop 2 src) (drop 2 dst) 2 true = Some (true, out2)
    ∧ process this src dst 3 true = Some (true, out1 ++ out2).
Proof.
  intros this src dst.
  destruct (process this src (take 2 dst) 1 true)
    as [[[] out1]|] eqn:Hrun1; [|by vm_compute in Hrun1..].
  destruct (process this (drop 2 src) (drop 2 dst) 2 true)
    as [[[] out2]|] eqn:Hrun2; [|by vm_compute in Hrun2..].
  exists out1, out2. split_and!; [done..|].
  exact (process_chunks this src dst 1 2 true out1 out2 Hrun1 Hrun2).
Defined.

(** ** Overwriting, silence and no frames *)

(** X9. Without [accumulate] the old destination samples are never
    used: on another destination of the same length the mix returns
    true as well, stores the same [2 * frameCount] samples, and leaves
    the rest of that destination as it was. *)
Theorem process_overwrites this src dst dst' frameCount out :
  length dst' = length dst →
  process this src dst frameCount false = Some (true, out) →
  ∃ out',
    process this src dst' frameCount false = Some (true, out')
    ∧ (∀ k, (k < 2 * frameCount)%nat → out' !! k = out !! k)
    ∧ (∀ k, (2 * frameCount ≤ k)%nat → out' !! k = dst' !! k).
Proof.
  intros Hlen Hrun.
  pose proof Hrun as [Hmask Hloop]%process_true.
  pose proof (process_frames _ _ _ _ _ _ Hrun) as (_ & _ & Hin).
  destruct (process_total this src dst' frameCount false Hmask)
    as [out' Hrun'].
  { intros f Hf. destruct (Hin f Hf) as (ch & _ & _ & -> & _). by eexists. }
  { destruct frameCount as [|n']; [lia|].
    pose proof (frameLoop_room _ _ _ _ _ _ _ _ Hloop ltac:(lia)). lia. }
  exists out'. split; [done|].
  pose proof (process_frames _ _ _ _ _ _ Hrun') as (_ & Hout' & Hin').
  split; [|done]. intros k Hk.
  destruct (stereo_offset k frameCount Hk) as (f & Hf & Hkf).
  destruct (Hin f Hf) as (ch & d0 & d1 & Hch & _ & _ & Hr0 & Hr1).
  destruct (Hin' f Hf) as (ch' & e0 & e1 & Hch' & _ & _ & Hs0 & Hs1).
  rewrite Hch in Hch'. injection Hch' as <-.
  destruct Hkf as [-> | ->]; [by rewrite Hs0, Hr0|by rewrite Hs1, Hr1].
Qed.

Lemma process_overwrites_witness :
  let this := ChannelMix_new garbage_rows AUDIO_CHANNEL_OUT_5POINT1_BACK in
  let src := [ratio 1 2; ratio 1 4; ratio 1 8; ratio 1 16;
              ratio (-1) 2; ratio 3 4] in
  let dst := [ratio 1 10; ratio 2 10; ratio 3 10] in
  let dst' := [ratio 9 10; ratio (-9) 10; ratio 1 1] in
  ∃ out out',
    process this src dst 1 false = Some (true, out)
    ∧ process this src dst' 1 false = Some (true, out')
    ∧ (∀ k, (k < 2 * 1)%nat → out' !! k = out !! k)
    ∧ (∀ k, (2 * 1 ≤ k)%nat → out' !! k = dst' !! k).
Proof.
  intros this src dst dst'.
  destruct (process this src dst 1 false)
    as [[[] out]|] eqn:Hrun; [|by vm_compute in Hrun..].
  destruct (process_overwrites this src dst dst' 1 out eq_refl Hrun)
    as (out' & Hrun' & Hsame & Hrest).
  by exists out, out'.
Defined.

Section silence.

Local Open Scope Qc_scope.

Lemma matrixRow_silence matrix src n : ∀ i ch ch',
  (∀ k x, src !! k = Some x → x = 0) →
  matrixRow matrix src n i ch = Some ch' → ch' = ch.
Proof.
  induction n as [|n IH]; intros i ch ch' Hzero Hrow; simpl in Hrow.
  - by injection Hrow as <-.
  - destruct (matrix !! i) as [g|]; [|done]. simpl in Hrow.
    destruct (src !! i) as [x|] eqn:Hx; [|done]. simpl in Hrow.
    apply Hzero in Hx as ->.
    rewrite !Qcmult_0_r, !Qcplus_0_r in Hrow.
    rewrite (IH _ _ _ Hzero Hrow). by destruct ch.
Qed.

Lemma specificSums_silence c src ch :
  (∀ k x, src !! k = Some x → x = 0) →
  specificSums c src = Some ch → ch = (0, 0).
Proof.
  intros Hzero. unfold specificSums, specificFrame.
  destruct (c =? 4)%nat; [|destruct (c =? 6)%nat; [|destruct (c =? 8)%nat]];
    intros Hsums; simplify_option_eq;
    repeat match goal with
    | H : src !! _ = Some _ |- _ => apply Hzero in H as ->
    end;
    f_equal; ring.
Qed.

(** X10. Silence in, silence out: when every source sample is 0, a mix
    that does not accumulate stores 0 in both samples of every frame,
    and one that accumulates stores the clamped old sample, whatever the
    mask and whatever the matrix holds. *)
Theorem process_silence this src dst frameCount accumulate out :
  (∀ k x, src !! k = Some x → x = 0) →
  process this src dst frameCount accumulate = Some (true, out) →
  ∀ k, (k < 2 * frameCount)%nat →
    out !! k = Some (if accumulate then clamp (dst !!! k) else 0).
Proof.
  intros Hzero Hrun k Hk.
  pose proof (process_frames _ _ _ _ _ _ Hrun) as (_ & _ & Hin).
  destruct (stereo_offset k frameCount Hk) as (f & Hf & Hkf).
  destruct (Hin f Hf) as (ch & d0 & d1 & Hch & Hd0 & Hd1 & Hr0 & Hr1).
  assert (ch = (0, 0)) as ->.
  { assert (∀ j x, drop (f * frameStride this) src !! j = Some x → x = 0)
      as Hzero' by (intros j x; rewrite lookup_drop; apply Hzero).
    unfold frameSums in Hch.
    destruct (fastChannelCount (mInputChannelMask this)) as [c|].
    - by apply (specificSums_silence c _ _ Hzero').
    - unfold matrixFrame in Hch.
      by apply (matrixRow_silence _ _ _ _ _ _ Hzero') in Hch. }
  unfold mixed in *. cbn [fst snd] in *.
  rewrite !Qcplus_0_l in *.
  destruct Hkf as [-> | ->].
  - rewrite Hr0, (list_lookup_total_correct _ _ _ Hd0).
    destruct accumulate; [done|by rewrite clamp_zero].
  - rewrite Hr1, (list_lookup_total_correct _ _ _ Hd1).
    destruct accumulate; [done|by rewrite clamp_zero].
Qed.

End silence.

Lemma process_silence_witness :
  let this := ChannelMix_new garbage_rows AUDIO_CHANNEL_OUT_QUAD_SIDE in
  let src := replicate 8 0%Qc in
  let dst := [ratio 3 2; ratio (-1) 4; ratio 1 8; ratio (-7) 2] in
  ∃ out,
    process this src dst 2 true = Some (true, out)
    ∧ ∀ k, (k < 2 * 2)%nat → out !! k = Some (clamp (dst !!! k)).
Proof.
  intros this src dst.
  destruct (process this src dst 2 true)
    as [[[] out]|] eqn:Hrun; [|by vm_compute in Hrun..].
  exists out. split; [done|].
  apply (process_silence this src dst 2 true out); [|exact Hrun].
  intros k x Hx. by apply lookup_replicate in Hx as [-> _].
Defined.

(** X11. With no frame to mix, a mix on a configured mixer returns true
    and on an unconfigured one false; either way no sample is read or
    stored, so any buffers will do, empty ones too. *)
Theorem process_no_frames this src dst accumulate :
  process this src dst 0 accumulate
  = Some (negb (mInputChannelMask this =? AUDIO_CHANNEL_NONE), dst).
Proof.
  rewrite process_frameLoop.
  by destruct (mInputChannelMask this =? AUDIO_CHANNEL_NONE).
Qed.

(** ** Saturation, once more *)

Section saturation_order.

Local Open Scope Qc_scope.

(** X12. Clamping twice is clamping once, and clamping keeps the order
    of samples: a louder sum never comes out lower. *)
Theorem clamp_idempotent_monotone x y :
  clamp (clamp x) = clamp x ∧ (x ≤ y → clamp x ≤ clamp y).
Proof.
  split; [apply clamp_id, clamp_range|].
  intros Hxy.
  destruct (decide (x ≤ -1)) as [Hlo|Hlo].
  { rewrite (clamp_low x Hlo). apply clamp_range. }
  apply Qc_not_le_le in Hlo.
  destruct (decide (y ≤ 1)) as [Hhi|Hhi].
  - rewrite (clamp_id x), (clamp_id y); [done| |].
    + split; [by apply Qcle_trans with x|done].
    + split; [done|by apply Qcle_trans with y].
  - apply Qc_not_le_le in Hhi. rewrite (clamp_high y Hhi). apply clamp_range.
Qed.

End saturation_order.

(** ** Positions without a gain and the last valid index *)

Lemma forallb_lookup {A} (f : A → bool) (l : list A) i x :
  forallb f l = true → l !! i = Some x → f x = true.
Proof.
  revert i. induction l as [|a l IH]; intros i Hall Hi; [done|].
  simpl in Hall. apply andb_prop in Hall as [Ha Hl].
  destruct i as [|i]; simpl in Hi; [by injection Hi as <-|by apply (IH i)].
Qed.

(** X13. A change to a mask of unrecognized position bits only leaves
    the last valid index where the mask before had put it: the channel
    count becomes the number of set bits and the rows below it (0,0),
    the rows from the channel count on stay, and a frame goes on being
    summed over as many rows and samples as before. *)
Theorem setInputChannelMask_keeps_last_valid this m :
  reachable this → unrecognized_only m → mInputChannelMask this ≠ m →
  let this' := (setInputChannelMask this m).2 in
  mLastValidChannelIndexPlusOne this' = mLastValidChannelIndexPlusOne this
  ∧ mInputChannelCount this' = length (set_bits m)
  ∧ (∀ i, (i < mInputChannelCount this')%nat →
       mMatrix this' !! i = Some (0%Qc, 0%Qc))
  ∧ (∀ i, (mInputChannelCount this' ≤ i)%nat →
       mMatrix this' !! i = mMatrix this !! i)
  ∧ ∀ src,
      matrixFrame this' src
      = matrixRow (mMatrix this') src (mLastValidChannelIndexPlusOne this)
          0 (0%Qc, 0%Qc).
Proof.
  intros Hreach Hun Hne this'.
  pose proof (unrecognized_only_generic m Hun) as (Hm & Hr & _ & _).
  pose proof (roles_unrecognized 32 m (proj2 Hun)) as Hall.
  pose proof (reachable_well_formed _ Hreach) as Hwf.
  assert (0 ≤ m < 2 ^ FCC_24) as Hrange by (destruct Hun as [[? ?] _]; lia).
  pose proof (roles_in_range m Hrange) as Hlen.
  subst this'. rewrite setInputChannelMask_changed by done. cbn [fst snd].
  cbn [mLastValidChannelIndexPlusOne mInputChannelCount mMatrix].
  assert (last_valid 0 (roles 32 m) (mLastValidChannelIndexPlusOne this)
          = mLastValidChannelIndexPlusOne this) as Hlast
    by (by apply last_valid_unrecognized).
  split_and!.
  - done.
  - by rewrite roles_set_bits, length_fmap.
  - intros i Hi.
    destruct (lookup_lt_is_Some_2 (roles 32 m) i Hi) as [r Hri].
    pose proof (write_gains_inside (roles 32 m) 0 (mMatrix this) i r Hri)
      as Hrow.
    rewrite Nat.add_0_l in Hrow. rewrite Hrow
      by (rewrite (wf_length _ Hwf); change (Z.to_nat FCC_24) with 24%nat
            in *; lia).
    pose proof (forallb_lookup _ _ _ _ Hall Hri) as Hrec.
    by destruct r.
  - intros i Hi. apply write_gains_outside. lia.
  - intros src. unfold matrixFrame. simpl. by rewrite Hlast.
Qed.

Lemma setInputChannelMask_keeps_last_valid_witness :
  let this := ChannelMix_new garbage_rows AUDIO_CHANNEL_OUT_5POINT1_SIDE in
  let m := Z.lor AUDIO_CHANNEL_OUT_FRONT_LEFT_OF_CENTER
             AUDIO_CHANNEL_OUT_FRONT_RIGHT_OF_CENTER in
  mLastValidChannelIndexPlusOne (setInputChannelMask this m).2 = 6%nat
  ∧ mInputChannelCount (setInputChannelMask this m).2 = 2%nat.
Proof.
  intros this m.
  destruct (setInputChannelMask_keeps_last_valid this m)
    as (Hlast & Hcount & _).
  - apply reachable_new. by vm_compute.
  - split; [by vm_compute|reflexivity].
  - by vm_compute.
  - split; [exact Hlast|exact Hcount].
Defined.

(** ** The fast paths, frame by frame *)

Lemma specificSums_formula c src off :
  fast_count c → (off + c ≤ length src)%nat →
  specificSums c (drop off src) = Some (fast_sums c src off).
Proof.
  intros [->|[->| ->]] Hlen; unfold specificSums, specificFrame, fast_sums;
    cbn [Nat.eqb]; rewrite !lookup_drop;
    rewrite !list_lookup_lookup_total_lt by lia; done.
Qed.

Section fast_formulas.

Local Open Scope Qc_scope.

(** X14. The fast paths by sample index.  For 4, 6 or 8 channels, with
    [frameCount] whole frames in the source and room for as many stereo
    frames in the destination, [specificProcess] returns true and a
    destination of the same length in which frame [f] holds the clamped
    left and right of the frame that starts at
    [src[f * CHANNEL_COUNT]], by the formula of that layout, added to
    the old samples when accumulating; the samples from
    [2 * frameCount] on are untouched. *)
Theorem specificProcess_frames CHANNEL_COUNT ACCUMULATE src dst frameCount :
  fast_count CHANNEL_COUNT →
  (frameCount * CHANNEL_COUNT ≤ length src)%nat →
  (2 * frameCount ≤ length dst)%nat →
  ∃ out,
    specificProcess CHANNEL_COUNT ACCUMULATE src dst 0 frameCount
      = Some (true, out)
    ∧ length out = length dst
    ∧ (∀ f, (f < frameCount)%nat →
         out !! (2 * f)%nat =
           Some (clamp ((if ACCUMULATE then dst !!! (2 * f)%nat else 0)
                  + (fast_sums CHANNEL_COUNT src (f * CHANNEL_COUNT)).1))
         ∧ out !! (2 * f + 1)%nat =
           Some (clamp ((if ACCUMULATE then dst !!! (2 * f + 1)%nat else 0)
                  + (fast_sums CHANNEL_COUNT src (f * CHANNEL_COUNT)).2)))
    ∧ (∀ k, (2 * frameCount ≤ k)%nat → out !! k = dst !! k).
Proof.
  intros Hc Hsrc Hdst.
  assert (∀ f, (f < frameCount)%nat →
    specificSums CHANNEL_COUNT (drop (f * CHANNEL_COUNT) src)
    = Some (fast_sums CHANNEL_COUNT src (f * CHANNEL_COUNT))) as Hframes.
  { intros f Hf. apply specificSums_formula; [done|].
    assert (S f * CHANNEL_COUNT ≤ frameCount * CHANNEL_COUNT)%nat
      by (apply Nat.mul_le_mono_r; lia).
    lia. }
  destruct (frameLoop_total (specificSums CHANNEL_COUNT) CHANNEL_COUNT
    ACCUMULATE frameCount src dst 0) as [out Hrun].
  { intros f Hf. by rewrite Hframes. }
  { lia. }
  exists out. split_and!.
  - by rewrite specificProcess_frameLoop, Hrun.
  - by apply frameLoop_length in Hrun.
  - intros f Hf.
    destruct (frameLoop_inside _ _ _ _ _ _ _ _ f Hrun Hf)
      as (ch & d0 & d1 & Hch & Hd0 & Hd1 & Hr0 & Hr1).
    rewrite Hframes in Hch by done. injection Hch as <-.
    rewrite Nat.add_0_l in Hd0, Hd1, Hr0, Hr1.
    rewrite Hr0, Hr1.
    rewrite (list_lookup_total_correct _ _ _ Hd0),
      (list_lookup_total_correct _ _ _ Hd1).
    unfold mixed. destruct ACCUMULATE.
    + by rewrite (Qcplus_comm d0), (Qcplus_comm d1).
    + by rewrite !Qcplus_0_l.
  - intros k Hk. apply (frameLoop_outside _ _ _ _ _ _ _ _ k Hrun). lia.
Qed.

End fast_formulas.

Lemma specificProcess_frames_witness :
  let src := [ratio 1 1; ratio 0 1; ratio 1 1; ratio 0 1;
              ratio 1 2; ratio 1 4; ratio 1 8; ratio 1 16] in
  let dst := [ratio 0 1; ratio 0 1; ratio 1 10; ratio 2 10; ratio 7 10] in
  ∃ out,
    specificProcess 4 true src dst 0 2 = Some (true, out)
    ∧ length out = 5%nat
    ∧ out !! 4%nat = Some (ratio 7 10).
Proof.
  intros src dst.
  destruct (specificProcess_frames 4 true src dst 2)
    as (out & Hrun & Hlen & _ & Hrest).
  - by left.
  - vm_compute. lia.
  - vm_compute. lia.
  - exists out. split_and!; [exact Hrun|exact Hlen|].
    exact (Hrest 4%nat ltac:(lia)).
Defined.

(** ** What every mixer in use keeps *)

(** X15. However a mixer has been configured and reconfigured, its
    matrix has 24 rows, its mask has position bits only, its channel
    count is the number of set bits of the mask (none without a mask),
    row [i] below the channel count holds the gain of the [i]-th set
    bit, and the last valid index is at most 24: the frame loop of
    [matrixProcess] never reads a row outside the matrix. *)
Theorem reachable_invariants this :
  reachable this →
  length (mMatrix this) = 24%nat
  ∧ 0 ≤ mInputChannelMask this < 2 ^ FCC_24
  ∧ mInputChannelCount this = length (set_bits (mInputChannelMask this))
  ∧ (mInputChannelMask this = AUDIO_CHANNEL_NONE →
     mInputChannelCount this = 0%nat)
  ∧ (mInputChannelCount this ≤ 24)%nat
  ∧ (∀ i bit,
       set_bits (mInputChannelMask this) !! i = Some bit →
       mMatrix this !! i = Some (gain (classify bit)))
  ∧ (mLastValidChannelIndexPlusOne this ≤ length (mMatrix this))%nat.
Proof.
  intros Hwf%reachable_well_formed.
  pose proof (wf_mask _ Hwf) as Hmask.
  assert (is_uint32 (mInputChannelMask this)) as Hm
    by (unfold is_uint32, FCC_24 in *; lia).
  pose proof (wf_count _ Hwf) as Hcount.
  pose proof (wf_rows _ Hwf) as Hrows.
  pose proof (roles_in_range _ Hmask) as Hlen.
  rewrite <- Hcount in Hlen.
  rewrite roles_set_bits in Hcount, Hrows by done.
  rewrite length_fmap in Hcount.
  split; [apply (wf_length _ Hwf)|].
  split; [exact Hmask|].
  split; [exact Hcount|].
  split; [intros Hnone; rewrite Hcount, Hnone; reflexivity|].
  split; [exact Hlen|].
  split.
  - intros i bit Hbit. apply Hrows. by rewrite list_lookup_fmap, Hbit.
  - rewrite (wf_length _ Hwf). apply (wf_last_bound _ Hwf).
Qed.

Lemma reachable_invariants_witness :
  let this :=
    (setInputChannelMask
       (ChannelMix_new garbage_rows AUDIO_CHANNEL_OUT_7POINT1)
       AUDIO_CHANNEL_OUT_FRONT_LEFT_OF_CENTER).2 in
  length (mMatrix this) = 24%nat
  ∧ mInputChannelCount this = length (set_bits (mInputChannelMask this))
  ∧ (mLastValidChannelIndexPlusOne this ≤ length (mMatrix this))%nat.
Proof.
  intros this.
  destruct (reachable_invariants this)
    as (Hlen & _ & Hcount & _ & _ & _ & Hlast).
  - apply reachable_set; [apply reachable_new, is_uint32_7point1|].
    by vm_compute.
  - by split_and!.
Defined.

(** ** The two paths in binary32 *)

